(** * FIRST sets over a two-link grammar graph

    A shallow embedding of [main.go]: the [Node] and [Header] records, the
    two [First] methods and the two example grammars built in [main].

    Go pointers are modelled as addresses into a heap; a nullable pointer is
    an [option] of an address.  The [visited] argument of [First] is a Go
    map, that is a reference to a mutable object shared by all the recursive
    calls, so visitation records live in the heap as well and [First]
    receives their address.  Code is written in a state-and-error monad over
    that heap. *)

From Stdlib Require Import Ascii String ZArith.
From Stdlib.Strings Require Import Byte.
From stdpp Require Import gmap strings fin_maps fin_sets relations.



(** ** Data model *)

Definition nptr := positive.   (* address of a Node *)
Definition hptr := positive.   (* address of a Header *)
Definition mptr := positive.   (* address of a map[*Node]bool *)

(** [type Node struct { Terminal bool; Tsym string; Nsym *Header; Suc *Node; Alt *Node }] *)
Record Node := mkNode {
  Terminal : bool;
  Tsym : string;
  Nsym : option hptr;
  Suc : option nptr;
  Alt : option nptr
}.

(** [type Header struct { Sym string; Entry *Node }] *)
Record Header := mkHeader {
  Sym : string;
  Entry : option nptr
}.

(** The heap: the allocated nodes, headers and visitation maps.  A
    [map[*Node]bool] in which only [true] is ever stored is the set of its
    keys; so is the [map[string]bool] that [First] returns. *)
Record Heap := mkHeap {
  nodes : gmap positive Node;
  headers : gmap positive Header;
  vmaps : gmap positive (gset positive)
}.

Definition empty_heap : Heap := mkHeap ∅ ∅ ∅.

Definition with_nodes (h : Heap) (ns : gmap positive Node) : Heap :=
  mkHeap ns (headers h) (vmaps h).
Definition with_headers (h : Heap) (hs : gmap positive Header) : Heap :=
  mkHeap (nodes h) hs (vmaps h).
Definition with_vmaps (h : Heap) (ms : gmap positive (gset positive)) : Heap :=
  mkHeap (nodes h) (headers h) ms.

(** ** The monad *)

(** A computation returns a value and the new heap, panics (the Go runtime
    panic on a nil dereference or on a write to a nil map), is stuck on an
    address that is not allocated (which Go's memory safety excludes), or
    exhausts the recursion budget of the model. *)
Inductive outcome (A : Type) : Type :=
| Done (a : A) (h : Heap)
| Panic
| Stuck
| OutOfFuel.
Arguments Done {A} a h.
Arguments Panic {A}.
Arguments Stuck {A}.
Arguments OutOfFuel {A}.

Definition M (A : Type) : Type := Heap → outcome A.

Definition ret {A} (a : A) : M A := λ h, Done a h.

Definition bind {A B} (c : M A) (k : A → M B) : M B :=
  λ h, match c h with
       | Done a h' => k a h'
       | Panic => Panic
       | Stuck => Stuck
       | OutOfFuel => OutOfFuel
       end.

Notation "'let*' x ':=' c 'in' k" := (bind c (λ x, k))
  (at level 10, x name, c at level 100, k at level 200).

Definition panic {A} : M A := λ _, Panic.
Definition out_of_fuel {A} : M A := λ _, OutOfFuel.

(** *** Heap primitives *)

(** [&Node{...}] and [&Header{...}]: allocation at an unused address. *)
Definition new_node (n : Node) : M (option nptr) :=
  λ h, let p := fresh (dom (nodes h)) in
       Done (Some p) (with_nodes h (<[p := n]> (nodes h))).

Definition new_header (hd : Header) : M (option hptr) :=
  λ h, let p := fresh (dom (headers h)) in
       Done (Some p) (with_headers h (<[p := hd]> (headers h))).

(** [map[*Node]bool{}] *)
Definition new_map : M (option mptr) :=
  λ h, let p := fresh (dom (vmaps h)) in
       Done (Some p) (with_vmaps h (<[p := ∅]> (vmaps h))).

(** [p.f] for a field [f] of a node. *)
Definition node_get {A} (p : option nptr) (f : Node → A) : M A :=
  λ h, match p with
       | None => Panic
       | Some a => match nodes h !! a with
                   | Some n => Done (f n) h
                   | None => Stuck
                   end
       end.

(** [p.f = v], given as the update of the record. *)
Definition node_set (p : option nptr) (upd : Node → Node) : M unit :=
  λ h, match p with
       | None => Panic
       | Some a => match nodes h !! a with
                   | Some n => Done tt (with_nodes h (<[a := upd n]> (nodes h)))
                   | None => Stuck
                   end
       end.

Definition header_get {A} (p : option hptr) (f : Header → A) : M A :=
  λ h, match p with
       | None => Panic
       | Some a => match headers h !! a with
                   | Some hd => Done (f hd) h
                   | None => Stuck
                   end
       end.

Definition header_set (p : option hptr) (upd : Header → Header) : M unit :=
  λ h, match p with
       | None => Panic
       | Some a => match headers h !! a with
                   | Some hd => Done tt (with_headers h (<[a := upd hd]> (headers h)))
                   | None => Stuck
                   end
       end.

Definition set_Suc (v : option nptr) (n : Node) : Node :=
  mkNode (Terminal n) (Tsym n) (Nsym n) v (Alt n).
Definition set_Alt (v : option nptr) (n : Node) : Node :=
  mkNode (Terminal n) (Tsym n) (Nsym n) (Suc n) v.
Definition set_Entry (v : option nptr) (hd : Header) : Header :=
  mkHeader (Sym hd) v.

(** [visited[k]]: reading a nil map gives the zero value. *)
Definition map_get (m : option mptr) (k : nptr) : M bool :=
  λ h, match m with
       | None => Done false h
       | Some a => match vmaps h !! a with
                   | Some s => Done (bool_decide (k ∈ s)) h
                   | None => Stuck
                   end
       end.

(** [visited[k] = true]: writing to a nil map panics. *)
Definition map_set (m : option mptr) (k : nptr) : M unit :=
  λ h, match m with
       | None => Panic
       | Some a => match vmaps h !! a with
                   | Some s => Done tt (with_vmaps h (<[a := {[k]} ∪ s]> (vmaps h)))
                   | None => Stuck
                   end
       end.

(** ** The FIRST computation *)

(** [for sym := range src { dst[sym] = true }] *)
Definition add_all (dst src : gset string) : gset string := dst ∪ src.

(** [func (h *Header) First(visited map[*Node]bool) map[string]bool],
    over the [First] of nodes it calls. *)
Definition Header_First_with
    (node_first : option nptr → option mptr → M (gset string))
    (h : option hptr) (visited : option mptr) : M (gset string) :=
  let firstSymbols : gset string := ∅ in
  let* entry := header_get h Entry in
  let* syms := node_first entry visited in
  ret (add_all firstSymbols syms).

(** [func (node *Node) First(visited map[*Node]bool) map[string]bool].
    [fuel] bounds the depth of nested calls of [Node.First].  The source
    reads [node.Nsym] three times in the non-terminal branch; nothing writes
    a node in between, and the model reads it once.  [firstSymbols] is
    updated in place in the source and rebound here. *)
Fixpoint Node_First (fuel : nat) (node : option nptr) (visited : option mptr)
    : M (gset string) :=
  match fuel with
  | O => out_of_fuel
  | S fuel' =>
    let firstSymbols : gset string := ∅ in
    match node with
    | None => ret firstSymbols
    | Some p =>
      let* seen := map_get visited p in
      if seen : bool then ret firstSymbols else
      let* _ := map_set visited p in
      let* terminal := node_get node Terminal in
      let* firstSymbols :=
        (if terminal : bool then
           let* tsym := node_get node Tsym in
           ret ({[tsym]} ∪ firstSymbols)
         else
           let* nsym := node_get node Nsym in
           match nsym with
           | None => ret firstSymbols
           | Some _ =>
             let* entry := header_get nsym Entry in
             match entry with
             | None => ret firstSymbols
             | Some _ =>
               let* syms := Header_First_with (Node_First fuel') nsym visited in
               ret (add_all firstSymbols syms)
             end
           end) in
      let* alt := node_get node Alt in
      match alt with
      | None => ret firstSymbols
      | Some _ =>
        let* syms := Node_First fuel' alt visited in
        ret (add_all firstSymbols syms)
      end
    end
  end.

Definition Header_First (fuel : nat) : option hptr → option mptr → M (gset string) :=
  Header_First_with (Node_First fuel).

(** A call as [main] makes it: [start.First(map[*Node]bool{})]. *)
Definition call_Header_First (fuel : nat) (h : option hptr) : M (gset string) :=
  let* visited := new_map in
  Header_First fuel h visited.

Definition call_Node_First (fuel : nat) (node : option nptr) : M (gset string) :=
  let* visited := new_map in
  Node_First fuel node visited.

(** ** The example grammars of [main.go] *)

(** The two bytes of the UTF-8 encoding of the empty-symbol marker. *)
Definition epsilon : string := String "206"%char (String "181"%char EmptyString).

Definition terminal_node (s : string) : Node := mkNode true s None None None.
Definition nonterminal_node (nsym : option hptr) (suc : option nptr) : Node :=
  mkNode false "" nsym suc None.

(** [func example5() *Header] *)
Definition example5 : M (option hptr) :=
  let* empty := new_node (terminal_node epsilon) in
  let* lParen := new_node (terminal_node "(") in
  let* plus := new_node (terminal_node "+") in
  let* rParen := new_node (terminal_node ")") in
  let* x := new_node (terminal_node "x") in
  let* A := new_header (mkHeader "A" None) in
  let* B := new_header (mkHeader "B" None) in
  let* C := new_header (mkHeader "C" None) in
  let* _ := header_set A (set_Entry x) in
  let* _ := node_set x (set_Alt lParen) in
  let* n1 := new_node (nonterminal_node A rParen) in
  let* _ := node_set lParen (set_Suc n1) in
  let* n2 := new_node (nonterminal_node C None) in
  let* n3 := new_node (nonterminal_node A n2) in
  let* _ := header_set B (set_Entry n3) in
  let* _ := header_set C (set_Entry plus) in
  let* _ := node_set plus (set_Alt empty) in
  let* n4 := new_node (nonterminal_node A plus) in
  let* _ := node_set plus (set_Suc n4) in
  ret A.

(** [func example5reduced() *Header] *)
Definition example5reduced : M (option hptr) :=
  let* A := new_header (mkHeader "A" None) in
  let* x := new_node (terminal_node "x") in
  let* lParen := new_node (terminal_node "(") in
  let* empty := new_node (terminal_node epsilon) in
  let* plus := new_node (terminal_node "+") in
  let* rParen := new_node (terminal_node ")") in
  let* _ := header_set A (set_Entry lParen) in
  let* _ := node_set lParen (set_Alt x) in
  let* n1 := new_node (nonterminal_node A plus) in
  let* _ := node_set lParen (set_Suc n1) in
  let* _ := node_set plus (set_Alt empty) in
  let* n2 := new_node (nonterminal_node A plus) in
  let* _ := node_set plus (set_Suc n2) in
  let* _ := node_set empty (set_Suc rParen) in
  ret A.

(** * Vocabulary of the statements *)

(** A pointer is nil or the address of an allocated object. *)
Definition ptr_ok {V} (m : gmap positive V) (p : option positive) : Prop :=
  match p with None => True | Some a => is_Some (m !! a) end.

Global Instance ptr_ok_dec {V} (m : gmap positive V) p : Decision (ptr_ok m p).
Proof. destruct p; simpl; apply _. Defined.

(** A heap is closed when every pointer stored in it is nil or allocated;
    every heap of a Go program is. *)
Definition node_ok (h : Heap) (n : Node) : Prop :=
  ptr_ok (headers h) (Nsym n) ∧ ptr_ok (nodes h) (Suc n) ∧ ptr_ok (nodes h) (Alt n).

Definition header_ok (h : Heap) (hd : Header) : Prop :=
  ptr_ok (nodes h) (Entry hd).

Definition wf (h : Heap) : Prop :=
  map_Forall (λ _ n, node_ok h n) (nodes h) ∧
  map_Forall (λ _ hd, header_ok h hd) (headers h).

Global Instance wf_dec h : Decision (wf h).
Proof. unfold wf, node_ok, header_ok. apply _. Defined.

(** The links that [First] follows out of a node: [Alt], and for a
    non-terminal node the [Entry] of its header. [Suc] is not among them. *)
Definition out_edge (h : Heap) (n : Node) (q : nptr) : Prop :=
  Alt n = Some q ∨
  (Terminal n = false ∧
   ∃ a hd, Nsym n = Some a ∧ headers h !! a = Some hd ∧ Entry hd = Some q).

Definition edge (h : Heap) (p q : nptr) : Prop :=
  ∃ n, nodes h !! p = Some n ∧ out_edge h n q.

(** Reachability along those links, in zero or more steps. *)
Definition reach (h : Heap) : nptr → nptr → Prop := rtc (edge h).

(** The node at [q] is a terminal with symbol [s]. *)
Definition sym_at (h : Heap) (q : nptr) (s : string) : Prop :=
  ∃ n, nodes h !! q = Some n ∧ Terminal n = true ∧ Tsym n = s.

(** The heap in which the visited map at [v] holds the set [V]. *)
Definition marked (h : Heap) (v : mptr) (V : gset positive) : Heap :=
  with_vmaps h (<[v := V]> (vmaps h)).

(** What one call of [Node.First] on [node] does to a visited map that
    held [V]: it holds [V'] afterwards, every node added was reachable from
    [node] and has all its links in [V'], and the symbols returned are those
    of the terminals added. *)
Definition traversal (h : Heap) (node : option nptr) (V V' : gset positive)
    (syms : gset string) : Prop :=
  V ⊆ V' ∧
  (∀ p, node = Some p → p ∈ V') ∧
  (∀ q, q ∈ V' → q ∉ V →
     (∃ p, node = Some p ∧ reach h p q) ∧ (∀ q', edge h q q' → q' ∈ V')) ∧
  (∀ s, s ∈ syms ↔ ∃ q, q ∈ V' ∧ q ∉ V ∧ sym_at h q s).

(** What the terminal / non-terminal branch of a node [p] adds, between the
    visited sets [V1] (on entry of the branch) and [V2] (on exit). *)
Definition contribution (h : Heap) (p : nptr) (n : Node)
    (V1 V2 : gset positive) (fs : gset string) : Prop :=
  V1 ⊆ V2 ∧
  (∀ q, q ∈ V2 → q ∉ V1 → reach h p q ∧ (∀ q', edge h q q' → q' ∈ V2)) ∧
  (∀ a hd q, Terminal n = false → Nsym n = Some a →
     headers h !! a = Some hd → Entry hd = Some q → q ∈ V2) ∧
  (∀ s, s ∈ fs ↔ sym_at h p s ∨ ∃ q, q ∈ V2 ∧ q ∉ V1 ∧ sym_at h q s).

(** The value a computation returned, if it returned. *)
Definition result_of {A} (o : outcome A) : option A :=
  match o with Done a _ => Some a | _ => None end.

(** The FIRST set the code computes from a fresh visitation record: the
    symbols of the terminal nodes reachable from the start node. *)
Definition first_set (h : Heap) (node : option nptr) (syms : gset string) : Prop :=
  ∀ s, s ∈ syms ↔ ∃ p q, node = Some p ∧ reach h p q ∧ sym_at h q s.

(** [c2] returns whatever [c1] returns. *)
Definition below {A} (c1 c2 : M A) : Prop :=
  ∀ h a h', c1 h = Done a h' → c2 h = Done a h'.

(** The heap a computation leaves. *)
Definition heap_after {A} (c : M A) (h : Heap) : Heap :=
  match c h with Done _ h' => h' | _ => h end.

(** What a call of [First] with the map [visited] may change. *)
Definition frame (visited : option mptr) (h h' : Heap) : Prop :=
  nodes h' = nodes h ∧ headers h' = headers h ∧
  ∀ v, visited ≠ Some v → vmaps h' !! v = vmaps h !! v.

Definition keeps {A} (visited : option mptr) (c : M A) : Prop :=
  ∀ h a h', c h = Done a h' → frame visited h h'.

(** The heap after the node at [p] is overwritten with [n']. *)
Definition updated (h : Heap) (p : nptr) (n' : Node) : Heap :=
  with_nodes h (<[p := n']> (nodes h)).

(** The heaps that the two example builders leave, starting from nothing.
    In [heap5] the nodes are, by address: 1 [ε], 2 ['('], 3 ['+'], 4 [')'],
    5 ['x'], 6 to 9 the references to headers; the headers are 1 [A], 2 [B],
    3 [C].  In [heap5r]: 1 ['x'], 2 ['('], 3 [ε], 4 ['+'], 5 [')'], 6 and 7
    the references to [A]; the header [A] is 1. *)
Definition heap5 : Heap := heap_after example5 empty_heap.
Definition heap5r : Heap := heap_after example5reduced empty_heap.

(** [A ::= 'x'], and a node [n] that refers to [A] and has the alternative
    ['y']: addresses 1 ('x'), 2 ('y') and 3 ([n]); header [A] at address 1. *)
Definition heap_alt : Heap :=
  mkHeap {[ 1%positive := terminal_node "x";
            2%positive := terminal_node "y";
            3%positive := mkNode false "" (Some 1%positive) None (Some 2%positive) ]}
         {[ 1%positive := mkHeader "A" (Some 1%positive) ]}
         ∅.

(** Two calls in a row, each with a map of its own, as in [main]. *)
Definition twice_Node_First (fuel1 fuel2 : nat) (node : option nptr)
    : M (gset string * gset string) :=
  let* s1 := call_Node_First fuel1 node in
  let* s2 := call_Node_First fuel2 node in
  ret (s1, s2).

Definition twice_Header_First (fuel1 fuel2 : nat) (h : option hptr)
    : M (gset string * gset string) :=
  let* s1 := call_Header_First fuel1 h in
  let* s2 := call_Header_First fuel2 h in
  ret (s1, s2).

(** Two calls in a row that share one map. *)
Definition twice_shared_Header_First (fuel : nat) (h : option hptr)
    : M (gset string * gset string) :=
  let* visited := new_map in
  let* s1 := Header_First fuel h visited in
  let* s2 := Header_First fuel h visited in
  ret (s1, s2).

(** A non-terminal node whose header has no entry yet, with the alternative
    ['y']; and one whose [Nsym] is nil, with no alternative. *)
Definition heap_open : Heap :=
  mkHeap {[ 1%positive := mkNode false "" (Some 1%positive) None (Some 2%positive);
            2%positive := terminal_node "y";
            3%positive := mkNode false "" None None None ]}
         {[ 1%positive := mkHeader "S" None ]}
         ∅.

(** [A ::= A | 'y']: the node 1 refers to the header 1, whose entry it is. *)
Definition heap_left : Heap :=
  mkHeap {[ 1%positive := mkNode false "" (Some 1%positive) None (Some 2%positive);
            2%positive := terminal_node "y" ]}
         {[ 1%positive := mkHeader "A" (Some 1%positive) ]}
         ∅.

(** ** The symbol table and the scanner of [main.go] *)

(** [string(r)] for a rune [r]: the UTF-8 encoding of the code point, and
    that of U+FFFD for a value that is not a valid code point.  The bytes
    are given as numbers. *)
Definition utf8_bytes (r : Z) : list Z :=
  if (r <? 0)%Z || (1114111 <? r)%Z || ((55296 <=? r)%Z && (r <=? 57343)%Z)
  then [239; 191; 189]%Z
  else if (r <? 128)%Z then [r]
  else if (r <? 2048)%Z then
    [Z.lor 192 (Z.shiftr r 6); Z.lor 128 (Z.land r 63)]
  else if (r <? 65536)%Z then
    [Z.lor 224 (Z.shiftr r 12); Z.lor 128 (Z.land (Z.shiftr r 6) 63);
     Z.lor 128 (Z.land r 63)]
  else
    [Z.lor 240 (Z.shiftr r 18); Z.lor 128 (Z.land (Z.shiftr r 12) 63);
     Z.lor 128 (Z.land (Z.shiftr r 6) 63); Z.lor 128 (Z.land r 63)].

Definition string_of_rune (r : Z) : string :=
  string_of_list_ascii (map (λ z, ascii_of_N (Z.to_N z)) (utf8_bytes r)).

(** [var symtab map[rune]*Header]: nil until it is made, which the source
    never does.  The values are nullable pointers. *)
Definition Symtab : Type := option (gmap Z (option hptr)).

(** [h, ok := symtab[sym]]: [None] when [ok] is false. *)
Definition symtab_get (symtab : Symtab) (k : Z) : option (option hptr) :=
  match symtab with
  | None => None
  | Some t => t !! k
  end.

(** [func find(sym rune) *Header], with the global [symtab] passed in and
    out. *)
Definition find (sym : Z) (symtab : Symtab) : M (option hptr * Symtab) :=
  match symtab_get symtab sym with
  | Some h => ret (h, symtab)
  | None =>
    let* h := new_header (mkHeader (string_of_rune sym) None) in
    match symtab with
    | None => panic
    | Some t => ret (h, Some (<[sym := h]> t))
    end
  end.

(** The globals [input] and [sym], and what has been written to the
    standard output. *)
Record Scanner := mkScanner {
  input : list byte;
  sym : Z;
  stdout : string
}.

Definition rune_of_byte (b : byte) : Z := Z.of_N (Byte.to_N b).

(** The rune ['$']. *)
Definition dollar : Z := 36.

(** [func read()] *)
Definition read (s : Scanner) : Scanner :=
  match input s with
  | [] => mkScanner (input s) dollar (stdout s)
  | b :: rest => mkScanner rest (rune_of_byte b) (stdout s)
  end.

(** [func write()] *)
Definition write (s : Scanner) : Scanner :=
  if (sym s =? 0)%Z || (sym s =? dollar)%Z then s
  else mkScanner (input s) (sym s) (stdout s +:+ string_of_rune (sym s)).

(** [func getsym()] *)
Definition getsym (s : Scanner) : Scanner :=
  if (sym s =? dollar)%Z then s else write (read s).

(** [n] calls of [getsym] in a row. *)
Fixpoint getsyms (n : nat) (s : Scanner) : Scanner :=
  match n with
  | O => s
  | S n' => getsyms n' (getsym s)
  end.

(** The bytes of a slice as a string. *)
Definition string_of_bytes (bs : list byte) : string :=
  string_of_list_ascii (map ascii_of_byte bs).

(** What scanning the bytes [bs] writes: each byte as a rune, converted to
    a string, the zero byte left out. *)
Fixpoint echo (bs : list byte) : string :=
  match bs with
  | [] => ""
  | b :: rest =>
    (if (rune_of_byte b =? 0)%Z then "" else string_of_rune (rune_of_byte b))
    +:+ echo rest
  end.

(** The state in which the program starts:
    [var input = []byte(`A=x,(B).B=AC.C=[+A].`)] and [var sym rune]. *)
Definition initial_scanner : Scanner :=
  mkScanner (map byte_of_ascii (list_ascii_of_string "A=x,(B).B=AC.C=[+A]."))
            0 "".

(** Every entry of the table is a header that is allocated and named after
    its key, and no header is entered under two keys. *)
Definition entry_ok (h : Heap) (k : Z) (v : option hptr) : Prop :=
  match v with
  | Some a => match headers h !! a with
              | Some hd => Sym hd = string_of_rune k
              | None => False
              end
  | None => False
  end.

Global Instance entry_ok_dec h k v : Decision (entry_ok h k v).
Proof. unfold entry_ok. destruct v as [a|]; [destruct (headers h !! a)|]; apply _. Defined.

Definition symtab_ok (h : Heap) (t : gmap Z (option hptr)) : Prop :=
  map_Forall (entry_ok h) t ∧
  map_Forall (λ k1 v1, map_Forall (λ k2 v2, v1 = v2 → k1 = k2) t) t.

Global Instance symtab_ok_dec h t : Decision (symtab_ok h t).
Proof. unfold symtab_ok. apply _. Defined.

(** * Lemmas *)

Lemma edge_alt h p n q :
  nodes h !! p = Some n → Alt n = Some q → edge h p q.
Proof. intros. exists n. split; [done|]. by left. Qed.

Lemma edge_nsym h p n a hd q :
  nodes h !! p = Some n → Terminal n = false → Nsym n = Some a →
  headers h !! a = Some hd → Entry hd = Some q → edge h p q.
Proof. intros. exists n. split; [done|]. right. split; [done|]. by exists a, hd. Qed.

Lemma marked_marked h v V W : marked (marked h v V) v W = marked h v W.
Proof. unfold marked, with_vmaps. simpl. by rewrite insert_insert_eq. Qed.

Lemma marked_lookup h v V : vmaps (marked h v V) !! v = Some V.
Proof. apply lookup_insert_eq. Qed.

Lemma marked_id h v V : vmaps h !! v = Some V → marked h v V = h.
Proof. intros H. destruct h. unfold marked, with_vmaps. simpl in *. by rewrite insert_id. Qed.

Lemma size_unvisited_lt (D V : gset positive) p :
  p ∈ D → p ∉ V → size (D ∖ ({[p]} ∪ V)) < size (D ∖ V).
Proof. intros ??. apply subset_size. set_solver. Qed.

Lemma size_unvisited_le (D V W : gset positive) :
  V ⊆ W → size (D ∖ W) ≤ size (D ∖ V).
Proof. intros ?. apply subseteq_size. set_solver. Qed.

Lemma bind_Done {A B} (c : M A) (k : A → M B) h a h' :
  c h = Done a h' → bind c k h = k a h'.
Proof. unfold bind. by intros ->. Qed.

Lemma bind_assoc {A B C} (c : M A) (k1 : A → M B) (k2 : B → M C) h :
  bind (bind c k1) k2 h = bind c (λ x, bind (k1 x) k2) h.
Proof. unfold bind. by destruct (c h). Qed.

Lemma bind_ret {A B} (a : A) (k : A → M B) h : bind (ret a) k h = k a h.
Proof. done. Qed.

Lemma node_get_Some {A} (f : Node → A) h p n :
  nodes h !! p = Some n → node_get (Some p) f h = Done (f n) h.
Proof. unfold node_get. by intros ->. Qed.

Lemma header_get_Some {A} (f : Header → A) h p hd :
  headers h !! p = Some hd → header_get (Some p) f h = Done (f hd) h.
Proof. unfold header_get. by intros ->. Qed.

Lemma map_get_Some h v V k :
  vmaps h !! v = Some V → map_get (Some v) k h = Done (bool_decide (k ∈ V)) h.
Proof. unfold map_get. by intros ->. Qed.

Lemma map_set_Some h v V k :
  vmaps h !! v = Some V → map_set (Some v) k h = Done tt (marked h v ({[k]} ∪ V)).
Proof. unfold map_set. by intros ->. Qed.

Ltac run_node H := erewrite bind_Done by (apply node_get_Some; exact H); cbv beta.
Ltac run_header H := erewrite bind_Done by (apply header_get_Some; exact H); cbv beta.

Lemma traversal_nil h V : traversal h None V V ∅.
Proof. unfold traversal. set_solver. Qed.

Lemma traversal_seen h p V : p ∈ V → traversal h (Some p) V V ∅.
Proof. unfold traversal. set_solver. Qed.

Lemma traversal_node h p n V V2 V3 fs syms :
  nodes h !! p = Some n → p ∉ V →
  contribution h p n ({[p]} ∪ V) V2 fs →
  traversal h (Alt n) V2 V3 syms →
  traversal h (Some p) V V3 (fs ∪ syms).
Proof.
  intros Hn Hp (Hsub & Hmid & Hent & Hfs) (Hsub' & Halt & Hnew & Hsyms).
  split; [set_solver|]. split; [intros ? [= <-]; set_solver|]. split.
  - intros q Hq HqV.
    destruct (decide (q = p)) as [->|Hqp].
    { split; [exists p; split; [done|apply rtc_refl]|].
      intros q' (n' & Hn' & [Ha|(Ht & a & hd & Ha & Hhd & He)]); simplify_eq.
      - by apply Halt.
      - apply Hsub'. eauto. }
    destruct (decide (q ∈ V2)) as [Hq2|Hq2].
    + destruct (Hmid q Hq2) as [Hr Hcl]; [set_solver|].
      split; [eauto|]. intros q' He. apply Hsub'. eauto.
    + destruct (Hnew q Hq Hq2) as [(m & Hm & Hr) Hcl].
      split; [|done]. exists p. split; [done|].
      eapply rtc_l; [|exact Hr]. eapply edge_alt; eauto.
  - intros s. rewrite elem_of_union, Hfs, Hsyms. split.
    + intros [[Hs|(q & Hq2 & Hq1 & Hs)]|(q & Hq3 & Hq2 & Hs)].
      * exists p. set_solver.
      * exists q. set_solver.
      * exists q. set_solver.
    + intros (q & Hq3 & HqV & Hs).
      destruct (decide (q = p)) as [->|Hqp]; [by left; left|].
      destruct (decide (q ∈ V2)) as [Hq2|Hq2].
      * left; right. exists q. set_solver.
      * right. exists q. set_solver.
Qed.

Lemma contribution_terminal h p n V1 :
  nodes h !! p = Some n → Terminal n = true →
  contribution h p n V1 V1 ({[Tsym n]} ∪ ∅).
Proof.
  intros Hn Ht. split; [done|]. split; [set_solver|]. split; [congruence|].
  intros s. rewrite union_empty_r_L, elem_of_singleton. split.
  - intros ->. left. by exists n.
  - intros [(n' & ? & ? & ?)|(q & ? & ? & _)]; [congruence|done].
Qed.

Lemma contribution_none h p n V1 :
  nodes h !! p = Some n → Terminal n = false →
  (∀ a hd, Nsym n = Some a → headers h !! a = Some hd → Entry hd = None) →
  contribution h p n V1 V1 ∅.
Proof.
  intros Hn Ht Hno. split; [done|]. split; [set_solver|]. split.
  - intros a hd q _ Ha Hhd He. rewrite (Hno a hd Ha Hhd) in He. done.
  - intros s. split; [set_solver|].
    intros [(n' & ? & ? & ?)|(q & ? & ? & _)]; [congruence|done].
Qed.

Lemma contribution_entry h p n a hd e V1 V2 syms :
  nodes h !! p = Some n → Terminal n = false → Nsym n = Some a →
  headers h !! a = Some hd → Entry hd = Some e →
  traversal h (Some e) V1 V2 syms →
  contribution h p n V1 V2 (add_all ∅ (add_all ∅ syms)).
Proof.
  intros Hn Ht Ha Hhd He (Hsub & Hin & Hnew & Hsyms).
  split; [done|]. split; [|split].
  - intros q Hq2 Hq1. destruct (Hnew q Hq2 Hq1) as [(e' & [= <-] & Hr) Hcl].
    split; [|done]. eapply rtc_l; [|exact Hr]. eapply edge_nsym; eauto.
  - intros a' hd' q _ ? ? ?. simplify_eq. by apply Hin.
  - intros s. unfold add_all. rewrite !union_empty_l_L, Hsyms. split; [eauto|].
    intros [(n' & ? & ? & ?)|?]; [congruence|done].
Qed.

Lemma Node_First_traversal fuel : ∀ h node v V,
  wf h → ptr_ok (nodes h) node → vmaps h !! v = Some V →
  size (dom (nodes h) ∖ V) < fuel →
  ∃ syms V', Node_First fuel node (Some v) h = Done syms (marked h v V')
             ∧ traversal h node V V' syms.
Proof.
  induction fuel as [|fuel IH]; intros h node v V Hwf Hnode Hv Hfuel; [lia|].
  destruct node as [p|]; simpl.
  2:{ exists ∅, V. rewrite (marked_id _ _ _ Hv). split; [done|apply traversal_nil]. }
  erewrite bind_Done by (by apply map_get_Some).
  destruct (decide (p ∈ V)) as [Hin|Hnin].
  { rewrite bool_decide_true by done. exists ∅, V. rewrite (marked_id _ _ _ Hv).
    split; [done|by apply traversal_seen]. }
  rewrite bool_decide_false by done.
  destruct Hnode as [n Hn].
  erewrite bind_Done by (by apply map_set_Some).
  assert (Hsz : size (dom (nodes h) ∖ ({[p]} ∪ V)) < fuel).
  { assert (p ∈ dom (nodes h)) as Hd by (apply elem_of_dom; eauto).
    pose proof (size_unvisited_lt (dom (nodes h)) V p Hd Hnin). lia. }
  assert (Hrec : ∀ node' V2, ptr_ok (nodes h) node' → {[p]} ∪ V ⊆ V2 →
            ∃ syms V3, Node_First fuel node' (Some v) (marked h v V2)
                       = Done syms (marked h v V3)
                       ∧ traversal h node' V2 V3 syms).
  { intros node' V2 Hok Hsub.
    destruct (IH (marked h v V2) node' v V2) as (syms & V3 & Hrun & Htr);
      [exact Hwf|exact Hok|apply marked_lookup| |].
    - pose proof (size_unvisited_le (dom (nodes h)) _ _ Hsub). simpl. lia.
    - exists syms, V3. rewrite marked_marked in Hrun. split; [exact Hrun|exact Htr]. }
  assert (Htail : ∀ fs V2, {[p]} ∪ V ⊆ V2 →
            ∃ syms V3,
              match Alt n with
              | Some _ => let* syms0 := Node_First fuel (Alt n) (Some v) in
                          ret (add_all fs syms0)
              | None => ret fs
              end (marked h v V2) = Done (fs ∪ syms) (marked h v V3)
              ∧ traversal h (Alt n) V2 V3 syms).
  { intros fs V2 Hsub. destruct (Alt n) as [m|] eqn:Halt.
    - destruct (Hrec (Some m) V2) as (syms & V3 & Hrun & Htr); [|done|].
      { destruct Hwf as [Hns _]. specialize (Hns p n Hn).
        destruct Hns as (_ & _ & Hok). by rewrite Halt in Hok. }
      exists syms, V3. by erewrite bind_Done by exact Hrun.
    - exists ∅, V2. rewrite union_empty_r_L. split; [done|apply traversal_nil]. }
  assert (Hn1 : ∀ V2, nodes (marked h v V2) !! p = Some n) by (intros; exact Hn).
  run_node (Hn1 ({[p]} ∪ V)).
  assert (Hmid : ∃ fs V2,
            (if Terminal n
             then let* tsym := node_get (Some p) Tsym in ret ({[tsym]} ∪ ∅)
             else
               let* nsym := node_get (Some p) Nsym in
               match nsym with
               | Some _ =>
                   let* entry := header_get nsym Entry in
                   match entry with
                   | Some _ =>
                       let* syms0 := Header_First_with (Node_First fuel) nsym (Some v) in
                       ret (add_all ∅ syms0)
                   | None => ret ∅
                   end
               | None => ret ∅
               end) (marked h v ({[p]} ∪ V)) = Done fs (marked h v V2)
            ∧ contribution h p n ({[p]} ∪ V) V2 fs).
  { destruct (Terminal n) eqn:Ht.
    { run_node (Hn1 ({[p]} ∪ V)). eexists _, _. split; [done|].
      by apply contribution_terminal. }
    run_node (Hn1 ({[p]} ∪ V)).
    destruct (Nsym n) as [a|] eqn:Ha.
    2:{ eexists _, _. split; [done|]. apply contribution_none; [done..|congruence]. }
    assert (∃ hd, headers h !! a = Some hd) as [hd Hhd].
    { destruct Hwf as [Hns _]. specialize (Hns p n Hn).
      destruct Hns as (Hok & _). by rewrite Ha in Hok. }
    assert (Hhd1 : ∀ V2, headers (marked h v V2) !! a = Some hd) by (intros; exact Hhd).
    run_header (Hhd1 ({[p]} ∪ V)).
    destruct (Entry hd) as [e|] eqn:He.
    2:{ eexists _, _. split; [done|]. apply contribution_none; [done..|].
        intros ????. by simplify_eq. }
    destruct (Hrec (Some e) ({[p]} ∪ V)) as (syms & V2 & Hrun & Htr); [|done|].
    { destruct Hwf as [_ Hhs]. specialize (Hhs a hd Hhd).
      unfold header_ok in Hhs. by rewrite He in Hhs. }
    unfold Header_First_with. rewrite bind_assoc.
    run_header (Hhd1 ({[p]} ∪ V)). rewrite He, bind_assoc.
    erewrite bind_Done by exact Hrun. rewrite !bind_ret.
    eexists _, _. split; [done|]. by eapply contribution_entry. }
  destruct Hmid as (fs & V2 & Hrun & Hcontr).
  erewrite bind_Done by exact Hrun.
  run_node (Hn1 V2).
  destruct (Htail fs V2) as (syms & V3 & Hrun' & Htr); [by destruct Hcontr|].
  exists (fs ∪ syms), V3. split; [exact Hrun'|].
  by eapply traversal_node.
Qed.

Lemma first_set_unique h node s1 s2 :
  first_set h node s1 → first_set h node s2 → s1 = s2.
Proof. intros H1 H2. apply set_eq. intros s. by rewrite (H1 s), (H2 s). Qed.

Lemma traversal_fresh h node V' syms :
  traversal h node ∅ V' syms → first_set h node syms.
Proof.
  intros (_ & Hstart & Hnew & Hsyms) s. rewrite Hsyms. split.
  - intros (q & Hq & _ & Hs). destruct (Hnew q Hq) as [(p & Hp & Hr) _]; [set_solver|].
    by exists p, q.
  - intros (p & q & Hp & Hr & Hs). exists q. split; [|split; [set_solver|done]].
    specialize (Hstart p Hp). clear Hp Hs.
    induction Hr as [|x y z Hxy _ IHr]; [done|].
    apply IHr. destruct (Hnew x Hstart) as [_ Hcl]; [set_solver|]. by apply Hcl.
Qed.

Lemma new_map_run h :
  new_map h = Done (Some (fresh (dom (vmaps h)))) (marked h (fresh (dom (vmaps h))) ∅).
Proof. done. Qed.

Lemma call_Node_First_first_set fuel h node :
  wf h → ptr_ok (nodes h) node → size (nodes h) < fuel →
  ∃ syms V', call_Node_First fuel node h
             = Done syms (marked h (fresh (dom (vmaps h))) V')
             ∧ first_set h node syms.
Proof.
  intros Hwf Hok Hfuel. unfold call_Node_First.
  erewrite bind_Done by apply new_map_run.
  destruct (Node_First_traversal fuel (marked h (fresh (dom (vmaps h))) ∅) node
              (fresh (dom (vmaps h))) ∅) as (syms & V' & Hrun & Htr);
    [exact Hwf|exact Hok|apply marked_lookup| |].
  { rewrite difference_empty_L, size_dom. exact Hfuel. }
  exists syms, V'. rewrite marked_marked in Hrun. split; [exact Hrun|].
  by eapply traversal_fresh.
Qed.

Lemma Header_First_unfold fuel a hd visited h :
  headers h !! a = Some hd →
  Header_First fuel (Some a) visited h
  = (let* syms := Node_First fuel (Entry hd) visited in ret (add_all ∅ syms)) h.
Proof.
  intros Hhd. unfold Header_First, Header_First_with.
  by erewrite bind_Done by (by apply header_get_Some).
Qed.

Lemma call_Header_First_first_set fuel h a hd :
  wf h → headers h !! a = Some hd → size (nodes h) < fuel →
  ∃ syms V', call_Header_First fuel (Some a) h
             = Done syms (marked h (fresh (dom (vmaps h))) V')
             ∧ first_set h (Entry hd) syms.
Proof.
  intros Hwf Hhd Hfuel.
  destruct (call_Node_First_first_set fuel h (Entry hd)) as (syms & V' & Hrun & Hfs);
    [done|by apply Hwf in Hhd|done|].
  exists syms, V'. split; [|done].
  unfold call_Header_First. unfold call_Node_First in Hrun.
  erewrite bind_Done in * by apply new_map_run.
  erewrite Header_First_unfold by exact Hhd.
  erewrite bind_Done by exact Hrun. unfold ret, add_all. by rewrite union_empty_l_L.
Qed.

Lemma below_refl {A} (c : M A) : below c c.
Proof. by intros ???. Qed.

Lemma below_bind {A B} (c1 c2 : M A) (k1 k2 : A → M B) :
  below c1 c2 → (∀ a, below (k1 a) (k2 a)) → below (bind c1 k1) (bind c2 k2).
Proof.
  intros Hc Hk h b h'. unfold bind.
  destruct (c1 h) as [a h1| | |] eqn:H1; [|done..].
  rewrite (Hc _ _ _ H1). apply Hk.
Qed.

Lemma Node_First_below fuel : ∀ fuel' node visited,
  fuel ≤ fuel' → below (Node_First fuel node visited) (Node_First fuel' node visited).
Proof.
  induction fuel as [|fuel IH]; intros fuel' node visited Hle; [by intros ???|].
  destruct fuel' as [|fuel']; [lia|]. assert (fuel ≤ fuel') as Hle' by lia.
  simpl. destruct node as [p|]; [|apply below_refl].
  apply below_bind; [apply below_refl|]. intros [|]; [apply below_refl|].
  apply below_bind; [apply below_refl|]. intros _.
  apply below_bind; [apply below_refl|]. intros terminal.
  apply below_bind.
  - destruct terminal; [apply below_refl|].
    apply below_bind; [apply below_refl|]. intros [a|]; [|apply below_refl].
    apply below_bind; [apply below_refl|]. intros [e|]; [|apply below_refl].
    apply below_bind; [|intros; apply below_refl].
    unfold Header_First_with.
    apply below_bind; [apply below_refl|]. intros entry.
    apply below_bind; [by apply IH|intros; apply below_refl].
  - intros fs. apply below_bind; [apply below_refl|]. intros [m|]; [|apply below_refl].
    apply below_bind; [by apply IH|intros; apply below_refl].
Qed.

Lemma Header_First_below fuel fuel' h visited :
  fuel ≤ fuel' → below (Header_First fuel h visited) (Header_First fuel' h visited).
Proof.
  intros Hle. unfold Header_First, Header_First_with.
  apply below_bind; [apply below_refl|]. intros entry.
  apply below_bind; [by apply Node_First_below|intros; apply below_refl].
Qed.

Lemma call_Node_First_below fuel fuel' node :
  fuel ≤ fuel' → below (call_Node_First fuel node) (call_Node_First fuel' node).
Proof.
  intros Hle. apply below_bind; [apply below_refl|]. intros v.
  by apply Node_First_below.
Qed.

Lemma call_Header_First_below fuel fuel' h :
  fuel ≤ fuel' → below (call_Header_First fuel h) (call_Header_First fuel' h).
Proof.
  intros Hle. apply below_bind; [apply below_refl|]. intros v.
  by apply Header_First_below.
Qed.

Lemma frame_refl visited h : frame visited h h.
Proof. by repeat split. Qed.

Lemma frame_trans visited h1 h2 h3 :
  frame visited h1 h2 → frame visited h2 h3 → frame visited h1 h3.
Proof.
  intros (Hn & Hh & Hm) (Hn' & Hh' & Hm'). repeat split; [congruence..|].
  intros v Hv. by rewrite Hm', Hm.
Qed.

Lemma keeps_ret {A} visited (a : A) : keeps visited (ret a).
Proof. intros h a' h' [= _ <-]. apply frame_refl. Qed.

Lemma keeps_bind {A B} visited (c : M A) (k : A → M B) :
  keeps visited c → (∀ a, keeps visited (k a)) → keeps visited (bind c k).
Proof.
  intros Hc Hk h b h'. unfold bind.
  destruct (c h) as [a h1| | |] eqn:H1; [|done..].
  intros H2. eapply frame_trans; [by eapply Hc|by eapply Hk].
Qed.

Lemma keeps_node_get {A} visited p (f : Node → A) : keeps visited (node_get p f).
Proof.
  intros h a h'. unfold node_get. destruct p as [x|]; [|done].
  destruct (nodes h !! x); [|done]. intros [= _ <-]. apply frame_refl.
Qed.

Lemma keeps_header_get {A} visited p (f : Header → A) : keeps visited (header_get p f).
Proof.
  intros h a h'. unfold header_get. destruct p as [x|]; [|done].
  destruct (headers h !! x); [|done]. intros [= _ <-]. apply frame_refl.
Qed.

Lemma keeps_map_get visited k : keeps visited (map_get visited k).
Proof.
  intros h a h'. unfold map_get. destruct visited as [x|].
  - destruct (vmaps h !! x); [|done]. intros [= _ <-]. apply frame_refl.
  - intros [= _ <-]. apply frame_refl.
Qed.

Lemma keeps_map_set visited k : keeps visited (map_set visited k).
Proof.
  intros h a h'. unfold map_set. destruct visited as [x|]; [|done].
  destruct (vmaps h !! x); [|done]. intros [= _ <-].
  repeat split. intros v Hv. simpl. apply lookup_insert_ne. congruence.
Qed.

Lemma Node_First_keeps fuel : ∀ node visited, keeps visited (Node_First fuel node visited).
Proof.
  induction fuel as [|fuel IH]; intros node visited; [by intros ???|].
  simpl. destruct node as [p|]; [|apply keeps_ret].
  apply keeps_bind; [apply keeps_map_get|]. intros [|]; [apply keeps_ret|].
  apply keeps_bind; [apply keeps_map_set|]. intros _.
  apply keeps_bind; [apply keeps_node_get|]. intros terminal.
  apply keeps_bind.
  - destruct terminal.
    { apply keeps_bind; [apply keeps_node_get|]. intros; apply keeps_ret. }
    apply keeps_bind; [apply keeps_node_get|]. intros [a|]; [|apply keeps_ret].
    apply keeps_bind; [apply keeps_header_get|]. intros [e|]; [|apply keeps_ret].
    apply keeps_bind; [|intros; apply keeps_ret].
    apply keeps_bind; [apply keeps_header_get|]. intros entry.
    apply keeps_bind; [apply IH|intros; apply keeps_ret].
  - intros fs. apply keeps_bind; [apply keeps_node_get|].
    intros [m|]; [|apply keeps_ret].
    apply keeps_bind; [apply IH|intros; apply keeps_ret].
Qed.

Lemma Header_First_keeps fuel a visited : keeps visited (Header_First fuel a visited).
Proof.
  apply keeps_bind; [apply keeps_header_get|]. intros entry.
  apply keeps_bind; [apply Node_First_keeps|intros; apply keeps_ret].
Qed.

Lemma node_set_run h p n upd :
  nodes h !! p = Some n → node_set (Some p) upd h = Done tt (updated h p (upd n)).
Proof. unfold node_set. by intros ->. Qed.

Lemma ptr_ok_insert {V} (m : gmap positive V) p v x :
  ptr_ok m x → ptr_ok (<[p := v]> m) x.
Proof.
  destruct x as [a|]; [|done]. simpl. rewrite lookup_insert_is_Some.
  destruct (decide (p = a)); auto.
Qed.

Lemma updated_wf h p n' : wf h → node_ok h n' → wf (updated h p n').
Proof.
  intros [Hns Hhs] (H1 & H2 & H3). split.
  - apply map_Forall_insert_2.
    + repeat split; [done|by apply ptr_ok_insert..].
    + intros q n0 Hq. destruct (Hns q n0 Hq) as (? & ? & ?).
      repeat split; [done|by apply ptr_ok_insert..].
  - intros a hd Hhd. specialize (Hhs a hd Hhd). by apply ptr_ok_insert.
Qed.

Lemma updated_size h p n n' :
  nodes h !! p = Some n → size (nodes (updated h p n')) = size (nodes h).
Proof. intros Hn. simpl. by eapply map_size_insert_Some. Qed.

Lemma updated_sym_at h p n n' q s :
  nodes h !! p = Some n → Terminal n' = Terminal n → Tsym n' = Tsym n →
  sym_at (updated h p n') q s ↔ sym_at h q s.
Proof.
  intros Hn Ht Hs. unfold sym_at. simpl. destruct (decide (p = q)) as [<-|Hne].
  - rewrite lookup_insert_eq. split.
    + intros (? & [= <-] & ? & ?). exists n. split; [done|]. split; congruence.
    + intros (? & ? & ? & ?). simplify_eq. exists n'. split; [done|]. split; congruence.
  - by rewrite lookup_insert_ne.
Qed.

Lemma updated_edge h p n' x y :
  edge (updated h p n') x y ↔ (x = p ∧ out_edge h n' y) ∨ (x ≠ p ∧ edge h x y).
Proof.
  unfold edge. simpl. destruct (decide (p = x)) as [<-|Hne].
  - rewrite lookup_insert_eq. split.
    + intros (? & [= <-] & ?). by left.
    + intros [[_ ?]|[? _]]; [|done]. by exists n'.
  - rewrite lookup_insert_ne by done. split; [intros; right; split; [congruence|done]|].
    intros [[? _]|[_ ?]]; [congruence|done].
Qed.

Lemma reach_mono h1 h2 x y :
  (∀ a b, edge h1 a b → edge h2 a b) → reach h1 x y → reach h2 x y.
Proof. intros Hsub Hr. induction Hr; [apply rtc_refl|]. eapply rtc_l; eauto. Qed.

Lemma first_set_ext h1 h2 node syms :
  (∀ a b, edge h1 a b ↔ edge h2 a b) → (∀ q s, sym_at h1 q s ↔ sym_at h2 q s) →
  first_set h1 node syms → first_set h2 node syms.
Proof.
  intros He Hs Hfs s. rewrite (Hfs s). split.
  - intros (p & q & ? & Hr & ?). exists p, q. split; [done|]. split; [|by apply Hs].
    eapply reach_mono; [|exact Hr]. intros. by apply He.
  - intros (p & q & ? & Hr & ?). exists p, q. split; [done|]. split; [|by apply Hs].
    eapply reach_mono; [|exact Hr]. intros. by apply He.
Qed.

Lemma first_set_from h p syms :
  first_set h (Some p) syms ↔ ∀ s, s ∈ syms ↔ ∃ q, reach h p q ∧ sym_at h q s.
Proof.
  unfold first_set. split; intros H s; rewrite (H s); naive_solver.
Qed.

Lemma first_set_None h syms : first_set h None syms → syms = ∅.
Proof. intros H. apply set_eq. intros s. rewrite (H s). set_solver. Qed.

(** From a non-terminal node, what is reachable through its links. *)
Lemma reach_symbol_nonterminal h p n s :
  nodes h !! p = Some n → Terminal n = false →
  (∃ q, reach h p q ∧ sym_at h q s) ↔
  (∃ y q, out_edge h n y ∧ reach h y q ∧ sym_at h q s).
Proof.
  intros Hn Ht. split.
  - intros (q & Hr & Hs). apply rtc_inv in Hr as [<-|(y & (n' & Hn' & He) & Hr)].
    + destruct Hs as (n' & ? & ? & _). congruence.
    + simplify_eq. by exists y, q.
  - intros (y & q & He & Hr & Hs). exists q. split; [|done].
    eapply rtc_l; [|exact Hr]. by exists n.
Qed.

Lemma result_of_Done {A} (c : M A) h a h' : c h = Done a h' → result_of (c h) = Some a.
Proof. by intros ->. Qed.

Ltac by_compute := apply (bool_decide_unpack _); vm_compute; exact I.

Lemma wf_heap5 : wf heap5.
Proof. by_compute. Qed.

Lemma wf_heap5r : wf heap5r.
Proof. by_compute. Qed.

Lemma wf_heap_alt : wf heap_alt.
Proof. by_compute. Qed.

Lemma updated_same_links h p n n' :
  nodes h !! p = Some n → (∀ y, out_edge h n' y ↔ out_edge h n y) →
  ∀ x y, edge (updated h p n') x y ↔ edge h x y.
Proof.
  intros Hn Hout x y. rewrite updated_edge. split.
  - intros [[-> He]|[_ He]]; [|done]. exists n. split; [done|]. by apply Hout.
  - intros He. destruct (decide (x = p)) as [->|Hne]; [left|by right].
    destruct He as (n0 & Hn0 & He). simplify_eq. split; [done|]. by apply Hout.
Qed.

Lemma node_ok_set_Suc h n suc' :
  node_ok h n → ptr_ok (nodes h) suc' → node_ok h (set_Suc suc' n).
Proof. intros (? & ? & ?) ?. by repeat split. Qed.

Lemma node_ok_set_Alt_nil h n : node_ok h n → node_ok h (set_Alt None n).
Proof. intros (? & ? & ?). by repeat split. Qed.

Lemma wf_node h p n : wf h → nodes h !! p = Some n → node_ok h n.
Proof. intros [Hns _] Hn. exact (Hns p n Hn). Qed.

(** Cutting the [Alt] link of [p]: what was reachable from [p] is reachable
    without that link, or from the alternative. *)
Lemma reach_cut_alt h p n m q :
  nodes h !! p = Some n → Alt n = Some m →
  reach h p q ↔ reach (updated h p (set_Alt None n)) p q ∨ reach h m q.
Proof.
  intros Hn Hm.
  assert (Hin : ∀ x y, edge (updated h p (set_Alt None n)) x y → edge h x y).
  { intros x y. rewrite updated_edge. intros [[-> He]|[_ He]]; [|done].
    exists n. split; [done|]. destruct He as [He|He]; [done|by right]. }
  assert (Hout : ∀ x y, edge h x y →
            (x = p ∧ y = m) ∨ edge (updated h p (set_Alt None n)) x y).
  { intros x y He. rewrite updated_edge.
    destruct (decide (x = p)) as [->|Hne]; [|by right; right].
    destruct He as (n0 & Hn0 & [He|He]); simplify_eq; [by left|].
    right; left. split; [done|]. by right. }
  split.
  - intros Hr.
    eapply (rtc_ind_r (λ z, reach (updated h p (set_Alt None n)) p z ∨ reach h m z) p);
      [left; apply rtc_refl| |exact Hr].
    clear q Hr. intros y z _ Hyz IH.
    destruct IH as [IH|IH]; [|right; by eapply rtc_r].
    destruct (Hout y z Hyz) as [[-> ->]|He]; [right; apply rtc_refl|].
    left. by eapply rtc_r.
  - intros [Hr|Hr]; [by eapply reach_mono|].
    eapply rtc_l; [|exact Hr]. by eapply edge_alt.
Qed.

(** * The claims *)

(** Claim C1.  For the grammar [A ::= 'x' | '(' A {'+' A} ')'] as
    [example5reduced] builds it, [First] on the header [A] it returns, called
    with a fresh empty visited map, returns exactly the set of ["x"] and
    ["("]; two nested calls of [Node.First] are enough. *)
Theorem First_example5reduced (fuel : nat) :
  2 ≤ fuel →
  result_of ((let* A := example5reduced in call_Header_First fuel A) empty_heap)
  = Some {[ "x"; "(" ]}.
Proof.
  intros Hfuel.
  assert (∃ h', (let* A := example5reduced in call_Header_First 2 A) empty_heap
                = Done {[ "x"; "(" ]} h') as [h' Hrun].
  { eexists. vm_compute. reflexivity. }
  eapply result_of_Done.
  eapply (below_bind _ _ _ (λ A, call_Header_First fuel A)); [apply below_refl| |exact Hrun].
  intros A. by apply call_Header_First_below.
Qed.

Lemma First_example5reduced_witness :
  result_of ((let* A := example5reduced in call_Header_First 2 A) empty_heap)
  = Some {[ "x"; "(" ]}.
Proof. apply (First_example5reduced 2). lia. Defined.

(** A nil [*Header] is not a header without entry: [Header.First] reads
    [h.Entry] before anything else, so on a nil receiver the call panics and
    returns no set. *)
Lemma Header_First_nil_header_panics :
  call_Header_First 1 None heap5r = Panic ∧
  result_of (call_Header_First 1 None heap5r) ≠ Some ∅.
Proof. split; [reflexivity|discriminate]. Qed.

(** Claim C2.  [First] on a starting header whose [Entry] is nil (the
    symbol is declared, no entry point defined yet) returns the empty set
    and does not fault, whatever the visited map is, and leaves the heap as
    it was. *)
Theorem Header_First_no_entry (fuel : nat) (h : Heap) (a : hptr) (hd : Header)
    (visited : option mptr) :
  headers h !! a = Some hd → Entry hd = None →
  Header_First (S fuel) (Some a) visited h = Done ∅ h ∧
  result_of (call_Header_First (S fuel) (Some a) h) = Some ∅.
Proof.
  intros Hhd He. split.
  - rewrite (Header_First_unfold _ _ _ _ _ Hhd), He. reflexivity.
  - unfold call_Header_First. erewrite bind_Done by apply new_map_run.
    erewrite Header_First_unfold by exact Hhd. rewrite He. reflexivity.
Qed.

Lemma Header_First_no_entry_witness :
  Header_First 1 (Some 1%positive) None
    (mkHeap ∅ {[ 1%positive := mkHeader "S" None ]} ∅)
  = Done ∅ (mkHeap ∅ {[ 1%positive := mkHeader "S" None ]} ∅) ∧
  result_of (call_Header_First 1 (Some 1%positive)
               (mkHeap ∅ {[ 1%positive := mkHeader "S" None ]} ∅)) = Some ∅.
Proof.
  apply (Header_First_no_entry 0 _ 1%positive (mkHeader "S" None) None);
    reflexivity.
Defined.

(** Claim C3.  On every finite, closed grammar graph, cycles through [Suc],
    [Alt] and header references included, [First] terminates: called with a
    fresh visited map on any node pointer (nil included) or on any
    header, it returns a finite set as soon as the recursion budget exceeds
    the number of nodes; and so does [Node.First] on any visited map that is
    allocated. *)
Theorem First_terminates (fuel : nat) (h : Heap) :
  wf h → size (nodes h) < fuel →
  (∀ node, ptr_ok (nodes h) node →
     ∃ syms h', call_Node_First fuel node h = Done syms h') ∧
  (∀ a, is_Some (headers h !! a) →
     ∃ syms h', call_Header_First fuel (Some a) h = Done syms h') ∧
  (∀ node v V, ptr_ok (nodes h) node → vmaps h !! v = Some V →
     ∃ syms h', Node_First fuel node (Some v) h = Done syms h').
Proof.
  intros Hwf Hfuel. split; [|split].
  - intros node Hok.
    destruct (call_Node_First_first_set fuel h node) as (syms & V' & Hrun & _);
      [done..|]. eauto.
  - intros a [hd Hhd].
    destruct (call_Header_First_first_set fuel h a hd) as (syms & V' & Hrun & _);
      [done..|]. eauto.
  - intros node v V Hok Hv.
    destruct (Node_First_traversal fuel h node v V) as (syms & V' & Hrun & _);
      [done..| |eauto].
    pose proof (size_unvisited_le (dom (nodes h)) ∅ V) as Hle.
    rewrite difference_empty_L, size_dom in Hle.
    eapply Nat.le_lt_trans; [apply Hle; set_solver|done].
Qed.

Lemma First_terminates_witness :
  (∀ node, ptr_ok (nodes heap5) node →
     ∃ syms h', call_Node_First 10 node heap5 = Done syms h') ∧
  (∀ a, is_Some (headers heap5 !! a) →
     ∃ syms h', call_Header_First 10 (Some a) heap5 = Done syms h') ∧
  (∀ node v V, ptr_ok (nodes heap5) node → vmaps heap5 !! v = Some V →
     ∃ syms h', Node_First 10 node (Some v) heap5 = Done syms h').
Proof.
  apply (First_terminates 10 heap5); [by_compute|vm_compute; lia].
Defined.

(** Claim C4, as stated, fails when the non-terminal node has an
    alternative.  In [heap_alt] the header [A] has the single terminal ['x']
    as its entry, with no [Alt] and no [Suc], so it cannot derive empty; the
    node at address 3 refers to [A] and has the alternative ['y'].  [First]
    of that node is the set of ["x"] and ["y"], [First] of [A] is the set of
    ["x"]. *)
Lemma First_nonterminal_with_alt :
  nodes heap_alt !! 3%positive
    = Some (mkNode false "" (Some 1%positive) None (Some 2%positive)) ∧
  headers heap_alt !! 1%positive = Some (mkHeader "A" (Some 1%positive)) ∧
  nodes heap_alt !! 1%positive = Some (mkNode true "x" None None None) ∧
  result_of (call_Node_First 4 (Some 3%positive) heap_alt) = Some {[ "x"; "y" ]} ∧
  result_of (call_Header_First 4 (Some 1%positive) heap_alt) = Some {[ "x" ]} ∧
  result_of (call_Node_First 4 (Some 3%positive) heap_alt)
  ≠ result_of (call_Header_First 4 (Some 1%positive) heap_alt).
Proof.
  repeat split; try (vm_compute; reflexivity).
  vm_compute. discriminate.
Qed.

(** Claim C4, amended.  For every non-terminal node [n] whose [Nsym] is a
    header [a], with a fresh visited map for each call: [First n] is the
    union of [First a] and [First n.Alt], so it equals [First a] when [n] has
    no alternative; and [First n] does not depend on [n.Suc]: it is the same
    after [n.Suc] is assigned any other node.  Whether the header can derive
    empty plays no part. *)
Theorem First_nonterminal (fuel : nat) (h : Heap) (p : nptr) (n : Node)
    (a : hptr) (suc' : option nptr) :
  wf h → nodes h !! p = Some n → Terminal n = false → Nsym n = Some a →
  ptr_ok (nodes h) suc' → size (nodes h) < fuel →
  ∃ s_n s_h s_alt,
    result_of (call_Node_First fuel (Some p) h) = Some s_n ∧
    result_of (call_Header_First fuel (Some a) h) = Some s_h ∧
    result_of (call_Node_First fuel (Alt n) h) = Some s_alt ∧
    s_n = s_h ∪ s_alt ∧
    (Alt n = None → s_n = s_h) ∧
    result_of ((let* _ := node_set (Some p) (set_Suc suc') in
                call_Node_First fuel (Some p)) h) = Some s_n.
Proof.
  intros Hwf Hn Ht Ha Hsuc Hfuel.
  pose proof (wf_node h p n Hwf Hn) as Hnok.
  assert (∃ hd, headers h !! a = Some hd) as [hd Hhd].
  { destruct Hnok as (Hok & _). by rewrite Ha in Hok. }
  destruct (call_Node_First_first_set fuel h (Some p)) as (s_n & V1 & Hrun1 & Hfs1);
    [done|by exists n|done|].
  destruct (call_Header_First_first_set fuel h a hd) as (s_h & V2 & Hrun2 & Hfs2);
    [done..|].
  destruct (call_Node_First_first_set fuel h (Alt n)) as (s_alt & V3 & Hrun3 & Hfs3);
    [done|apply Hnok|done|].
  assert (Heq : s_n = s_h ∪ s_alt).
  { apply set_eq. intros s. rewrite elem_of_union, (Hfs2 s), (Hfs3 s).
    rewrite (proj1 (first_set_from h p s_n) Hfs1 s).
    rewrite (reach_symbol_nonterminal h p n s Hn Ht). split.
    - intros (y & q & [He|(_ & a' & hd' & ? & ? & He)] & Hr & Hs); simplify_eq.
      + right. by exists y, q.
      + left. by exists y, q.
    - intros [(y & q & He & Hr & Hs)|(y & q & He & Hr & Hs)]; exists y, q.
      + split; [|done]. right. split; [done|]. by exists a, hd.
      + split; [|done]. by left. }
  exists s_n, s_h, s_alt.
  split; [by rewrite Hrun1|]. split; [by rewrite Hrun2|]. split; [by rewrite Hrun3|].
  split; [done|]. split.
  - intros Hnil. rewrite Hnil in Hfs3. rewrite (first_set_None _ _ Hfs3) in Heq.
    by rewrite union_empty_r_L in Heq.
  - erewrite bind_Done by (by apply node_set_run).
    destruct (call_Node_First_first_set fuel (updated h p (set_Suc suc' n)) (Some p))
      as (s' & V4 & Hrun4 & Hfs4).
    + apply updated_wf; [done|]. by apply node_ok_set_Suc.
    + apply ptr_ok_insert. by exists n.
    + by rewrite (updated_size h p n).
    + rewrite Hrun4. simpl. f_equal. eapply first_set_unique; [|exact Hfs1].
      eapply first_set_ext; [| |exact Hfs4].
      * by apply (updated_same_links h p n).
      * intros q s. by apply (updated_sym_at h p n).
Qed.

Lemma First_nonterminal_witness :
  ∃ s_n s_h s_alt,
    result_of (call_Node_First 4 (Some 3%positive) heap_alt) = Some s_n ∧
    result_of (call_Header_First 4 (Some 1%positive) heap_alt) = Some s_h ∧
    result_of (call_Node_First 4 (Some 2%positive) heap_alt) = Some s_alt ∧
    s_n = s_h ∪ s_alt ∧
    (Some 2%positive = None → s_n = s_h) ∧
    result_of ((let* _ := node_set (Some 3%positive) (set_Suc (Some 1%positive)) in
                call_Node_First 4 (Some 3%positive)) heap_alt) = Some s_n.
Proof.
  apply (First_nonterminal 4 heap_alt 3%positive
           (mkNode false "" (Some 1%positive) None (Some 2%positive))
           1%positive (Some 1%positive)).
  - by_compute.
  - reflexivity.
  - reflexivity.
  - reflexivity.
  - by_compute.
  - vm_compute. lia.
Defined.

(** Claim C5.  For every node [n] with [Alt = m]: [First n], [First] of [n]
    after [n.Alt = nil], and [First m], each computed with a fresh visited
    map of its own, satisfy [First n = First (n without alt) ∪ First m]. *)
Theorem First_choice_union (fuel : nat) (h : Heap) (p m : nptr) (n : Node) :
  wf h → nodes h !! p = Some n → Alt n = Some m → size (nodes h) < fuel →
  ∃ s_n s_cut s_m,
    result_of (call_Node_First fuel (Some p) h) = Some s_n ∧
    result_of ((let* _ := node_set (Some p) (set_Alt None) in
                call_Node_First fuel (Some p)) h) = Some s_cut ∧
    result_of (call_Node_First fuel (Some m) h) = Some s_m ∧
    s_n = s_cut ∪ s_m.
Proof.
  intros Hwf Hn Hm Hfuel.
  pose proof (wf_node h p n Hwf Hn) as Hnok.
  destruct (call_Node_First_first_set fuel h (Some p)) as (s_n & V1 & Hrun1 & Hfs1);
    [done|by exists n|done|].
  destruct (call_Node_First_first_set fuel (updated h p (set_Alt None n)) (Some p))
    as (s_cut & V2 & Hrun2 & Hfs2).
  { apply updated_wf; [done|]. by apply node_ok_set_Alt_nil. }
  { apply ptr_ok_insert. by exists n. }
  { by rewrite (updated_size h p n). }
  destruct (call_Node_First_first_set fuel h (Some m)) as (s_m & V3 & Hrun3 & Hfs3);
    [done| |done|].
  { destruct Hnok as (_ & _ & Hok). by rewrite Hm in Hok. }
  exists s_n, s_cut, s_m.
  split; [by rewrite Hrun1|]. split.
  { erewrite bind_Done by (by apply node_set_run). by rewrite Hrun2. }
  split; [by rewrite Hrun3|].
  apply set_eq. intros s. rewrite elem_of_union.
  rewrite (proj1 (first_set_from _ _ _) Hfs1 s).
  rewrite (proj1 (first_set_from _ _ _) Hfs2 s).
  rewrite (proj1 (first_set_from _ _ _) Hfs3 s).
  split.
  - intros (q & Hr & Hs). apply (reach_cut_alt h p n m q Hn Hm) in Hr as [Hr|Hr].
    + left. exists q. split; [done|]. by apply (updated_sym_at h p n).
    + right. by exists q.
  - intros [(q & Hr & Hs)|(q & Hr & Hs)]; exists q.
    + split; [apply (reach_cut_alt h p n m q Hn Hm); by left|].
      by apply (updated_sym_at h p n (set_Alt None n)) in Hs.
    + split; [apply (reach_cut_alt h p n m q Hn Hm); by right|done].
Qed.

Lemma First_choice_union_witness :
  ∃ s_n s_cut s_m,
    result_of (call_Node_First 8 (Some 2%positive) heap5r) = Some s_n ∧
    result_of ((let* _ := node_set (Some 2%positive) (set_Alt None) in
                call_Node_First 8 (Some 2%positive)) heap5r) = Some s_cut ∧
    result_of (call_Node_First 8 (Some 1%positive) heap5r) = Some s_m ∧
    s_n = s_cut ∪ s_m.
Proof.
  apply (First_choice_union 8 heap5r 2%positive 1%positive
           (mkNode true "(" None (Some 6%positive) (Some 1%positive))).
  - by_compute.
  - vm_compute. reflexivity.
  - reflexivity.
  - vm_compute. lia.
Defined.

(** Claim C6.  In the heap that [example5] builds, the header [C] has the
    terminal ['+'] as its entry, whose [Alt] is the terminal [ε] and whose
    [Suc] is a reference to [A] that loops back to ['+'].  [First C] with a
    fresh visited map returns exactly the set of ["+"] and ["ε"]: the empty
    symbol is returned like any terminal. *)
Theorem First_example5_repetition (fuel : nat) :
  2 ≤ fuel →
  headers heap5 !! 3%positive = Some (mkHeader "C" (Some 3%positive)) ∧
  nodes heap5 !! 3%positive
    = Some (mkNode true "+" None (Some 9%positive) (Some 1%positive)) ∧
  nodes heap5 !! 1%positive = Some (terminal_node epsilon) ∧
  nodes heap5 !! 9%positive = Some (nonterminal_node (Some 1%positive) (Some 3%positive)) ∧
  result_of (call_Header_First fuel (Some 3%positive) heap5) = Some {[ "+"; epsilon ]}.
Proof.
  intros Hfuel. repeat split; try (vm_compute; reflexivity).
  assert (∃ h', call_Header_First 2 (Some 3%positive) heap5
                = Done {[ "+"; epsilon ]} h') as [h' Hrun].
  { eexists. vm_compute. reflexivity. }
  eapply result_of_Done. eapply call_Header_First_below; [exact Hfuel|exact Hrun].
Qed.

Lemma First_example5_repetition_witness :
  headers heap5 !! 3%positive = Some (mkHeader "C" (Some 3%positive)) ∧
  nodes heap5 !! 3%positive
    = Some (mkNode true "+" None (Some 9%positive) (Some 1%positive)) ∧
  nodes heap5 !! 1%positive = Some (terminal_node epsilon) ∧
  nodes heap5 !! 9%positive = Some (nonterminal_node (Some 1%positive) (Some 3%positive)) ∧
  result_of (call_Header_First 2 (Some 3%positive) heap5) = Some {[ "+"; epsilon ]}.
Proof. apply (First_example5_repetition 2). lia. Defined.

(** Claim C7.  [First] on a nil node returns the empty set, whatever the
    visited map is, and leaves the heap as it was. *)
Theorem First_nil_node (fuel : nat) (visited : option mptr) (h : Heap) :
  Node_First (S fuel) None visited h = Done ∅ h ∧
  result_of (call_Node_First (S fuel) None h) = Some ∅.
Proof. split; reflexivity. Qed.

(** Claim C8.  Two calls of [First] in a row on the same node or header,
    each with a fresh visited map as in [main] and with the graph not
    modified in between, return equal sets, also when the two calls have
    different recursion budgets. *)
Theorem First_deterministic (fuel1 fuel2 : nat) (h : Heap) :
  wf h → size (nodes h) < fuel1 → size (nodes h) < fuel2 →
  (∀ node, ptr_ok (nodes h) node →
     ∃ s, result_of (twice_Node_First fuel1 fuel2 node h) = Some (s, s)) ∧
  (∀ a, is_Some (headers h !! a) →
     ∃ s, result_of (twice_Header_First fuel1 fuel2 (Some a) h) = Some (s, s)).
Proof.
  intros Hwf Hf1 Hf2. split.
  - intros node Hok.
    destruct (call_Node_First_first_set fuel1 h node) as (s1 & V1 & Hrun1 & Hfs1);
      [done..|].
    destruct (call_Node_First_first_set fuel2
                (marked h (fresh (dom (vmaps h))) V1) node)
      as (s2 & V2 & Hrun2 & Hfs2); [exact Hwf|exact Hok|exact Hf2|].
    exists s1. unfold twice_Node_First.
    erewrite bind_Done by exact Hrun1. erewrite bind_Done by exact Hrun2.
    simpl. do 2 f_equal. eapply first_set_unique; [exact Hfs2|exact Hfs1].
  - intros a [hd Hhd].
    destruct (call_Header_First_first_set fuel1 h a hd) as (s1 & V1 & Hrun1 & Hfs1);
      [done..|].
    destruct (call_Header_First_first_set fuel2
                (marked h (fresh (dom (vmaps h))) V1) a hd)
      as (s2 & V2 & Hrun2 & Hfs2); [exact Hwf|exact Hhd|exact Hf2|].
    exists s1. unfold twice_Header_First.
    erewrite bind_Done by exact Hrun1. erewrite bind_Done by exact Hrun2.
    simpl. do 2 f_equal. eapply first_set_unique; [exact Hfs2|exact Hfs1].
Qed.

Lemma First_deterministic_witness :
  (∀ node, ptr_ok (nodes heap5r) node →
     ∃ s, result_of (twice_Node_First 8 9 node heap5r) = Some (s, s)) ∧
  (∀ a, is_Some (headers heap5r !! a) →
     ∃ s, result_of (twice_Header_First 8 9 (Some a) heap5r) = Some (s, s)).
Proof.
  apply (First_deterministic 8 9 heap5r); [by_compute|vm_compute; lia..].
Defined.

(** The map is the caller's: a second call handed the map of the first finds
    the entry node marked and returns nothing. *)
Example First_shared_map :
  result_of (twice_shared_Header_First 8 (Some 1%positive) heap5r)
  = Some ({[ "x"; "(" ]}, ∅).
Proof. vm_compute. reflexivity. Qed.

(** Claim C9.  A call of [First] on a node or on a header that returns
    leaves every node and every header as it was; of the visited maps in the
    heap, only the one handed to the call may have changed. *)
Theorem First_frame (fuel : nat) (node : option nptr) (a : option hptr)
    (visited : option mptr) (h h' : Heap) (syms : gset string) :
  Node_First fuel node visited h = Done syms h' ∨
  Header_First fuel a visited h = Done syms h' →
  nodes h' = nodes h ∧ headers h' = headers h ∧
  ∀ v, visited ≠ Some v → vmaps h' !! v = vmaps h !! v.
Proof.
  intros [Hrun|Hrun].
  - exact (Node_First_keeps fuel node visited h syms h' Hrun).
  - exact (Header_First_keeps fuel a visited h syms h' Hrun).
Qed.

Lemma First_frame_witness :
  nodes (marked heap5r 1%positive {[ 1%positive; 2%positive ]})
  = nodes (marked heap5r 1%positive ∅) ∧
  headers (marked heap5r 1%positive {[ 1%positive; 2%positive ]})
  = headers (marked heap5r 1%positive ∅) ∧
  ∀ v, Some 1%positive ≠ Some v →
       vmaps (marked heap5r 1%positive {[ 1%positive; 2%positive ]}) !! v
       = vmaps (marked heap5r 1%positive ∅) !! v.
Proof.
  apply (First_frame 2 (Some 2%positive) None (Some 1%positive)
           (marked heap5r 1%positive ∅)
           (marked heap5r 1%positive {[ 1%positive; 2%positive ]})
           {[ "x"; "(" ]}).
  left. vm_compute. reflexivity.
Defined.

(** Claim C10.  For every non-terminal node [n] whose [Nsym] is nil, or
    whose [Nsym] has a nil [Entry], [First n] does not fault: it returns what
    [First n.Alt] returns, each with a fresh visited map, and that is the
    empty set when [Alt] is nil as well. *)
Theorem First_nonterminal_without_entry (fuel : nat) (h : Heap) (p : nptr) (n : Node) :
  wf h → nodes h !! p = Some n → Terminal n = false →
  (Nsym n = None ∨
   ∃ a hd, Nsym n = Some a ∧ headers h !! a = Some hd ∧ Entry hd = None) →
  size (nodes h) < fuel →
  ∃ s, result_of (call_Node_First fuel (Some p) h) = Some s ∧
       result_of (call_Node_First fuel (Alt n) h) = Some s ∧
       (Alt n = None → s = ∅).
Proof.
  intros Hwf Hn Ht Hno Hfuel.
  pose proof (wf_node h p n Hwf Hn) as Hnok.
  destruct (call_Node_First_first_set fuel h (Some p)) as (s_n & V1 & Hrun1 & Hfs1);
    [done|by exists n|done|].
  destruct (call_Node_First_first_set fuel h (Alt n)) as (s_alt & V3 & Hrun3 & Hfs3);
    [done|apply Hnok|done|].
  assert (Heq : s_n = s_alt).
  { apply set_eq. intros s. rewrite (Hfs3 s).
    rewrite (proj1 (first_set_from h p s_n) Hfs1 s).
    rewrite (reach_symbol_nonterminal h p n s Hn Ht). split.
    - intros (y & q & [He|(_ & a' & hd' & Ha & Hhd & He)] & Hr & Hs).
      + by exists y, q.
      + destruct Hno as [Hnil|(a & hd & ? & ? & ?)]; simplify_eq.
    - intros (y & q & He & Hr & Hs). exists y, q. split; [by left|done]. }
  exists s_n. split; [by rewrite Hrun1|]. split; [by rewrite Hrun3, Heq|].
  intros Hnil. rewrite Hnil in Hfs3. rewrite Heq. by eapply first_set_None.
Qed.

Lemma First_nonterminal_without_entry_witness :
  ∃ s, result_of (call_Node_First 4 (Some 1%positive) heap_open) = Some s ∧
       result_of (call_Node_First 4 (Some 2%positive) heap_open) = Some s ∧
       (Some 2%positive = None → s = ∅).
Proof.
  apply (First_nonterminal_without_entry 4 heap_open 1%positive
           (mkNode false "" (Some 1%positive) None (Some 2%positive))).
  - by_compute.
  - reflexivity.
  - reflexivity.
  - right. exists 1%positive, (mkHeader "S" None). repeat split; reflexivity.
  - vm_compute. lia.
Defined.

(** * Further properties of [First] *)

Lemma traversal_fresh_visited h node V' syms :
  traversal h node ∅ V' syms → ∀ q, q ∈ V' ↔ ∃ p, node = Some p ∧ reach h p q.
Proof.
  intros (_ & Hstart & Hnew & _) q. split.
  - intros Hq. destruct (Hnew q Hq) as [Hr _]; [set_solver|done].
  - intros (p & Hp & Hr). specialize (Hstart p Hp). clear Hp.
    induction Hr as [|x y z Hxy _ IHr]; [done|].
    apply IHr. destruct (Hnew x Hstart) as [_ Hcl]; [set_solver|]. by apply Hcl.
Qed.

Lemma size_unvisited_bound h V fuel :
  size (nodes h) < fuel → size (dom (nodes h) ∖ V) < fuel.
Proof.
  intros Hfuel. pose proof (size_unvisited_le (dom (nodes h)) ∅ V) as Hle.
  rewrite difference_empty_L, size_dom in Hle.
  eapply Nat.le_lt_trans; [apply Hle; set_solver|done].
Qed.

(** With a fresh visited map, [Node.First] returns exactly the symbols of
    the terminal nodes that can be reached from the start node through [Alt]
    links and through the [Entry] of the header of a non-terminal node, and
    leaves in the map exactly the nodes that can be reached. *)
Theorem First_fresh_reachable (fuel : nat) (h : Heap) (node : option nptr) :
  wf h → ptr_ok (nodes h) node → size (nodes h) < fuel →
  ∃ syms V',
    call_Node_First fuel node h
    = Done syms (marked h (fresh (dom (vmaps h))) V') ∧
    (∀ s, s ∈ syms ↔ ∃ p q, node = Some p ∧ reach h p q ∧ sym_at h q s) ∧
    (∀ q, q ∈ V' ↔ ∃ p, node = Some p ∧ reach h p q).
Proof.
  intros Hwf Hok Hfuel. unfold call_Node_First.
  erewrite bind_Done by apply new_map_run.
  destruct (Node_First_traversal fuel (marked h (fresh (dom (vmaps h))) ∅) node
              (fresh (dom (vmaps h))) ∅) as (syms & V' & Hrun & Htr);
    [exact Hwf|exact Hok|apply marked_lookup| |].
  { rewrite difference_empty_L, size_dom. exact Hfuel. }
  exists syms, V'. rewrite marked_marked in Hrun. split; [exact Hrun|]. split.
  - exact (traversal_fresh _ _ _ _ Htr).
  - exact (traversal_fresh_visited _ _ _ _ Htr).
Qed.

Lemma First_fresh_reachable_witness :
  ∃ syms V',
    call_Node_First 8 (Some 2%positive) heap5r
    = Done syms (marked heap5r (fresh (dom (vmaps heap5r))) V') ∧
    (∀ s, s ∈ syms ↔
       ∃ p q, Some 2%positive = Some p ∧ reach heap5r p q ∧ sym_at heap5r q s) ∧
    (∀ q, q ∈ V' ↔ ∃ p, Some 2%positive = Some p ∧ reach heap5r p q).
Proof.
  apply (First_fresh_reachable 8 heap5r (Some 2%positive));
    [by_compute|by_compute|vm_compute; lia].
Defined.

(** A call of [Node.First] with a map that already holds some nodes only
    adds to the map, marks the start node, and returns a subset of what the
    call with a fresh map returns; the same set when the map was empty. *)
Theorem First_visited_subset (fuel : nat) (h : Heap) (p : nptr) (v : mptr)
    (V : gset positive) :
  wf h → is_Some (nodes h !! p) → vmaps h !! v = Some V → size (nodes h) < fuel →
  ∃ syms V' syms0,
    Node_First fuel (Some p) (Some v) h = Done syms (marked h v V') ∧
    V ⊆ V' ∧ p ∈ V' ∧
    result_of (call_Node_First fuel (Some p) h) = Some syms0 ∧
    syms ⊆ syms0 ∧ (V = ∅ → syms = syms0).
Proof.
  intros Hwf Hp Hv Hfuel.
  destruct (Node_First_traversal fuel h (Some p) v V) as (syms & V' & Hrun & Htr);
    [done..|by apply size_unvisited_bound|].
  destruct (call_Node_First_first_set fuel h (Some p)) as (syms0 & V0 & Hrun0 & Hfs);
    [done..|].
  exists syms, V', syms0. split; [done|].
  pose proof Htr as (Hsub & Hstart & Hnew & Hsyms).
  split; [done|]. split; [by apply Hstart|]. split; [by rewrite Hrun0|]. split.
  - intros s. rewrite (Hsyms s), (Hfs s). intros (q & Hq & HqV & Hs).
    destruct (Hnew q Hq HqV) as [(p' & Hp' & Hr) _]. by exists p', q.
  - intros ->. eapply first_set_unique; [|exact Hfs]. by eapply traversal_fresh.
Qed.

Lemma First_visited_subset_witness :
  ∃ syms V' syms0,
    Node_First 8 (Some 2%positive) (Some 1%positive)
      (marked heap5r 1%positive {[ 1%positive ]})
    = Done syms (marked (marked heap5r 1%positive {[ 1%positive ]}) 1%positive V') ∧
    {[ 1%positive ]} ⊆ V' ∧ 2%positive ∈ V' ∧
    result_of (call_Node_First 8 (Some 2%positive)
                 (marked heap5r 1%positive {[ 1%positive ]})) = Some syms0 ∧
    syms ⊆ syms0 ∧ ({[ 1%positive ]} = (∅ : gset positive) → syms = syms0).
Proof.
  apply (First_visited_subset 8 (marked heap5r 1%positive {[ 1%positive ]})
           2%positive 1%positive {[ 1%positive ]});
    [by_compute|by_compute|reflexivity|vm_compute; lia].
Defined.

(** After a call of [First] on a node or on a header has returned, a second
    call on the same start with the same map returns the empty set and
    changes nothing: the start node is marked. *)
Theorem First_again_same_map (fuel fuel' : nat) (h : Heap) (v : mptr)
    (V : gset positive) :
  wf h → vmaps h !! v = Some V → size (nodes h) < fuel →
  (∀ p, is_Some (nodes h !! p) →
     ∃ syms h', Node_First fuel (Some p) (Some v) h = Done syms h' ∧
                Node_First (S fuel') (Some p) (Some v) h' = Done ∅ h') ∧
  (∀ a, is_Some (headers h !! a) →
     ∃ syms h', Header_First fuel (Some a) (Some v) h = Done syms h' ∧
                Header_First (S fuel') (Some a) (Some v) h' = Done ∅ h').
Proof.
  intros Hwf Hv Hfuel.
  assert (Hnode : ∀ node, ptr_ok (nodes h) node →
            ∃ syms V', Node_First fuel node (Some v) h = Done syms (marked h v V') ∧
                       Node_First (S fuel') node (Some v) (marked h v V')
                       = Done ∅ (marked h v V')).
  { intros node Hok.
    destruct (Node_First_traversal fuel h node v V) as (syms & V' & Hrun & Htr);
      [done..|by apply size_unvisited_bound|].
    exists syms, V'. split; [done|]. destruct node as [p|]; [|done].
    destruct Htr as (_ & Hstart & _). simpl.
    erewrite bind_Done by (apply map_get_Some, marked_lookup).
    by rewrite bool_decide_true by by apply Hstart. }
  split.
  - intros p Hp. destruct (Hnode (Some p) Hp) as (syms & V' & H1 & H2). eauto.
  - intros a [hd Hhd].
    destruct (Hnode (Entry hd)) as (syms & V' & H1 & H2); [by apply Hwf in Hhd|].
    exists syms, (marked h v V'). split.
    + erewrite Header_First_unfold by exact Hhd. erewrite bind_Done by exact H1.
      unfold ret, add_all. by rewrite union_empty_l_L.
    + erewrite Header_First_unfold by exact Hhd. by erewrite bind_Done by exact H2.
Qed.

Lemma First_again_same_map_witness :
  (∀ p, is_Some (nodes (marked heap5r 1%positive ∅) !! p) →
     ∃ syms h', Node_First 8 (Some p) (Some 1%positive) (marked heap5r 1%positive ∅)
                = Done syms h' ∧
                Node_First 1 (Some p) (Some 1%positive) h' = Done ∅ h') ∧
  (∀ a, is_Some (headers (marked heap5r 1%positive ∅) !! a) →
     ∃ syms h', Header_First 8 (Some a) (Some 1%positive) (marked heap5r 1%positive ∅)
                = Done syms h' ∧
                Header_First 1 (Some a) (Some 1%positive) h' = Done ∅ h').
Proof.
  apply (First_again_same_map 8 0 (marked heap5r 1%positive ∅) 1%positive ∅);
    [by_compute|reflexivity|vm_compute; lia].
Defined.

(** With a nil visited map, [First] panics on every node that is not nil,
    at the write to the map, and on every header that has an entry; on a
    nil node and on a header without entry it returns the empty set. *)
Theorem First_nil_map (fuel : nat) (h : Heap) :
  (∀ p, Node_First (S fuel) (Some p) None h = Panic) ∧
  Node_First (S fuel) None None h = Done ∅ h ∧
  (∀ a hd p, headers h !! a = Some hd → Entry hd = Some p →
     Header_First (S fuel) (Some a) None h = Panic) ∧
  (∀ a hd, headers h !! a = Some hd → Entry hd = None →
     Header_First (S fuel) (Some a) None h = Done ∅ h).
Proof.
  split; [done|]. split; [done|]. split.
  - intros a hd p Hhd He. rewrite (Header_First_unfold _ _ _ _ _ Hhd), He. done.
  - intros a hd Hhd He. rewrite (Header_First_unfold _ _ _ _ _ Hhd), He. done.
Qed.

(** From a terminal node, only its [Alt] link is followed. *)
Lemma reach_symbol_terminal h p n s :
  nodes h !! p = Some n → Terminal n = true →
  (∃ q, reach h p q ∧ sym_at h q s) ↔
  s = Tsym n ∨ ∃ m q, Alt n = Some m ∧ reach h m q ∧ sym_at h q s.
Proof.
  intros Hn Ht. split.
  - intros (q & Hr & Hs). apply rtc_inv in Hr as [<-|(y & (n' & Hn' & He) & Hr)].
    + left. destruct Hs as (n' & ? & _ & <-). congruence.
    + simplify_eq. destruct He as [He|(? & _)]; [|congruence].
      right. by exists y, q.
  - intros [->|(m & q & Hm & Hr & Hs)].
    + exists p. split; [apply rtc_refl|]. by exists n.
    + exists q. split; [|done]. eapply rtc_l; [|exact Hr]. by eapply edge_alt.
Qed.

(** For every terminal node [n], with fresh visited maps, [First n] is the
    symbol of [n] together with [First n.Alt]; a header left in the [Nsym]
    field of a terminal node is never looked at. *)
Theorem First_terminal (fuel : nat) (h : Heap) (p : nptr) (n : Node) :
  wf h → nodes h !! p = Some n → Terminal n = true → size (nodes h) < fuel →
  ∃ s_n s_alt,
    result_of (call_Node_First fuel (Some p) h) = Some s_n ∧
    result_of (call_Node_First fuel (Alt n) h) = Some s_alt ∧
    s_n = {[ Tsym n ]} ∪ s_alt.
Proof.
  intros Hwf Hn Ht Hfuel.
  pose proof (wf_node h p n Hwf Hn) as Hnok.
  destruct (call_Node_First_first_set fuel h (Some p)) as (s_n & V1 & Hrun1 & Hfs1);
    [done|by exists n|done|].
  destruct (call_Node_First_first_set fuel h (Alt n)) as (s_alt & V3 & Hrun3 & Hfs3);
    [done|apply Hnok|done|].
  exists s_n, s_alt. split; [by rewrite Hrun1|]. split; [by rewrite Hrun3|].
  apply set_eq. intros s. rewrite elem_of_union, elem_of_singleton, (Hfs3 s).
  rewrite (proj1 (first_set_from h p s_n) Hfs1 s).
  by rewrite (reach_symbol_terminal h p n s Hn Ht).
Qed.

Lemma First_terminal_witness :
  ∃ s_n s_alt,
    result_of (call_Node_First 8 (Some 2%positive) heap5r) = Some s_n ∧
    result_of (call_Node_First 8 (Some 1%positive) heap5r) = Some s_alt ∧
    s_n = {[ "(" ]} ∪ s_alt.
Proof.
  apply (First_terminal 8 heap5r 2%positive
           (mkNode true "(" None (Some 6%positive) (Some 1%positive)));
    [by_compute|vm_compute; reflexivity|reflexivity|vm_compute; lia].
Defined.

(** [First] never follows a [Suc] link: assigning the [Suc] field of any
    node changes the result of [First] on no start node. *)
Theorem First_ignores_Suc (fuel : nat) (h : Heap) (q : nptr) (nq : Node)
    (suc' node : option nptr) :
  wf h → nodes h !! q = Some nq → ptr_ok (nodes h) suc' →
  ptr_ok (nodes h) node → size (nodes h) < fuel →
  ∃ s, result_of (call_Node_First fuel node h) = Some s ∧
       result_of ((let* _ := node_set (Some q) (set_Suc suc') in
                   call_Node_First fuel node) h) = Some s.
Proof.
  intros Hwf Hq Hsuc Hok Hfuel.
  destruct (call_Node_First_first_set fuel h node) as (s & V1 & Hrun1 & Hfs1);
    [done..|].
  exists s. split; [by rewrite Hrun1|].
  erewrite bind_Done by (by apply node_set_run).
  destruct (call_Node_First_first_set fuel (updated h q (set_Suc suc' nq)) node)
    as (s' & V4 & Hrun4 & Hfs4).
  - apply updated_wf; [done|]. apply node_ok_set_Suc; [|done]. by eapply wf_node.
  - by apply ptr_ok_insert.
  - by rewrite (updated_size h q nq).
  - rewrite Hrun4. simpl. f_equal. eapply first_set_unique; [|exact Hfs1].
    eapply first_set_ext; [| |exact Hfs4].
    + by apply (updated_same_links h q nq).
    + intros x s0. by apply (updated_sym_at h q nq).
Qed.

Lemma First_ignores_Suc_witness :
  ∃ s, result_of (call_Node_First 8 (Some 2%positive) heap5r) = Some s ∧
       result_of ((let* _ := node_set (Some 1%positive) (set_Suc (Some 4%positive)) in
                   call_Node_First 8 (Some 2%positive)) heap5r) = Some s.
Proof.
  apply (First_ignores_Suc 8 heap5r 1%positive (terminal_node "x")
           (Some 4%positive) (Some 2%positive));
    [by_compute|vm_compute; reflexivity|by_compute|by_compute|vm_compute; lia].
Defined.

(** Direct left recursion adds nothing: for a non-terminal node [n] that is
    itself the entry of the header it refers to, [First n] with a fresh map
    is [First n.Alt], and so is [First] of that header. *)
Theorem First_left_recursion (fuel : nat) (h : Heap) (p : nptr) (n : Node)
    (a : hptr) (hd : Header) :
  wf h → nodes h !! p = Some n → Terminal n = false → Nsym n = Some a →
  headers h !! a = Some hd → Entry hd = Some p → size (nodes h) < fuel →
  ∃ s, result_of (call_Node_First fuel (Some p) h) = Some s ∧
       result_of (call_Header_First fuel (Some a) h) = Some s ∧
       result_of (call_Node_First fuel (Alt n) h) = Some s.
Proof.
  intros Hwf Hn Ht Ha Hhd He Hfuel.
  pose proof (wf_node h p n Hwf Hn) as Hnok.
  destruct (call_Node_First_first_set fuel h (Some p)) as (s_n & V1 & Hrun1 & Hfs1);
    [done|by exists n|done|].
  destruct (call_Header_First_first_set fuel h a hd) as (s_h & V2 & Hrun2 & Hfs2);
    [done..|].
  destruct (call_Node_First_first_set fuel h (Alt n)) as (s_alt & V3 & Hrun3 & Hfs3);
    [done|apply Hnok|done|].
  rewrite He in Hfs2. rewrite (first_set_unique _ _ _ _ Hfs2 Hfs1) in Hrun2.
  assert (Heq : s_n = s_alt).
  { apply set_eq. intros s. rewrite (Hfs3 s). split.
    - intros Hs. apply (proj1 (first_set_from h p s_n) Hfs1 s) in Hs as (q & Hr & Hq).
      assert (Hgo : ∀ x, reach h x q → x = p →
                ∃ m q', Alt n = Some m ∧ reach h m q' ∧ sym_at h q' s).
      { clear Hr. intros x Hr. induction Hr as [x|x y z Hxy Hyz IH]; intros ->.
        - destruct Hq as (n' & ? & ? & _). congruence.
        - destruct Hxy as (n' & Hn' & Hout). simplify_eq.
          destruct Hout as [Hm|(_ & a' & hd' & ? & ? & Hy)]; simplify_eq.
          + by exists y, z.
          + by apply IH. }
      destruct (Hgo p Hr eq_refl) as (m & q' & ? & ? & ?). by exists m, q'.
    - intros (m & q & Hm & Hr & Hq).
      apply (proj1 (first_set_from h p s_n) Hfs1 s). exists q. split; [|done].
      eapply rtc_l; [|exact Hr]. by eapply edge_alt. }
  exists s_n. split; [by rewrite Hrun1|]. split; [by rewrite Hrun2|].
  by rewrite Hrun3, Heq.
Qed.

Lemma First_left_recursion_witness :
  ∃ s, result_of (call_Node_First 3 (Some 1%positive) heap_left) = Some s ∧
       result_of (call_Header_First 3 (Some 1%positive) heap_left) = Some s ∧
       result_of (call_Node_First 3 (Some 2%positive) heap_left) = Some s.
Proof.
  apply (First_left_recursion 3 heap_left 1%positive
           (mkNode false "" (Some 1%positive) None (Some 2%positive))
           1%positive (mkHeader "A" (Some 1%positive)));
    [by_compute|reflexivity..|vm_compute; lia].
Defined.

(** * The symbol table *)

Lemma find_known sym t h r :
  t !! sym = Some r → find sym (Some t) h = Done (r, Some t) h.
Proof. unfold find. simpl. by intros ->. Qed.

Lemma find_unknown sym t h :
  t !! sym = None →
  find sym (Some t) h
  = Done (Some (fresh (dom (headers h))),
          Some (<[sym := Some (fresh (dom (headers h)))]> t))
         (with_headers h (<[fresh (dom (headers h))
                            := mkHeader (string_of_rune sym) None]> (headers h))).
Proof. unfold find. simpl. by intros ->. Qed.

Lemma fresh_header_unused h : headers h !! fresh (dom (headers h)) = None.
Proof. apply not_elem_of_dom, is_fresh. Qed.

(** [symtab] is nil when the program starts and nothing makes it: [find]
    then panics for every symbol, at the write to the nil map.  On a table
    that has been made, [find] always returns, the table then holds what it
    returned under the symbol, and asking again returns the same pointer
    and changes neither the table nor the heap. *)
Theorem find_idempotent (sym : Z) (t : gmap Z (option hptr)) (h : Heap) :
  find sym None h = Panic ∧
  ∃ r t' h',
    find sym (Some t) h = Done (r, Some t') h' ∧
    t' !! sym = Some r ∧
    find sym (Some t') h' = Done (r, Some t') h'.
Proof.
  split; [reflexivity|].
  destruct (t !! sym) as [r|] eqn:Hl.
  - exists r, t, h. by rewrite !(find_known _ _ _ _ Hl).
  - eexists _, _, _. split; [by apply find_unknown|].
    split; [apply lookup_insert_eq|]. apply find_known, lookup_insert_eq.
Qed.

(** For a symbol that the table does not hold, [find] allocates a header at
    an address that was not in use, named by the symbol converted to a string
    and without entry, and enters it; the other entries of the table, the
    headers that existed, the nodes and the visited maps are as before. *)
Theorem find_new_symbol (sym : Z) (t : gmap Z (option hptr)) (h : Heap) :
  t !! sym = None →
  ∃ a t' h',
    find sym (Some t) h = Done (Some a, Some t') h' ∧
    headers h !! a = None ∧
    headers h' !! a = Some (mkHeader (string_of_rune sym) None) ∧
    t' !! sym = Some (Some a) ∧
    (∀ k, k ≠ sym → t' !! k = t !! k) ∧
    (∀ b, b ≠ a → headers h' !! b = headers h !! b) ∧
    nodes h' = nodes h ∧ vmaps h' = vmaps h.
Proof.
  intros Hl. eexists _, _, _. split; [by apply find_unknown|].
  split; [apply fresh_header_unused|]. split; [apply lookup_insert_eq|].
  split; [apply lookup_insert_eq|]. split; [|split; [|done]].
  - intros k Hk. by apply lookup_insert_ne.
  - intros b Hb. simpl. by apply lookup_insert_ne.
Qed.

Lemma find_new_symbol_witness :
  ∃ a t' h',
    find 65 (Some ∅) heap5 = Done (Some a, Some t') h' ∧
    headers heap5 !! a = None ∧
    headers h' !! a = Some (mkHeader (string_of_rune 65) None) ∧
    t' !! 65%Z = Some (Some a) ∧
    (∀ k, k ≠ 65%Z → t' !! k = (∅ : gmap Z (option hptr)) !! k) ∧
    (∀ b, b ≠ a → headers h' !! b = headers heap5 !! b) ∧
    nodes h' = nodes heap5 ∧ vmaps h' = vmaps heap5.
Proof. apply (find_new_symbol 65 ∅ heap5). reflexivity. Defined.

Lemma find_spec sym t h :
  symtab_ok h t →
  ∃ a hd t' h',
    find sym (Some t) h = Done (Some a, Some t') h' ∧
    t' !! sym = Some (Some a) ∧
    (∀ k v, t !! k = Some v → t' !! k = Some v) ∧
    headers h' !! a = Some hd ∧ Sym hd = string_of_rune sym ∧
    symtab_ok h' t'.
Proof.
  intros [Hent Hinj].
  destruct (t !! sym) as [r|] eqn:Hl.
  - pose proof (Hent sym r Hl) as Hr. unfold entry_ok in Hr.
    destruct r as [a|]; [|done]. destruct (headers h !! a) as [hd|] eqn:Hhd; [|done].
    exists a, hd, t, h. rewrite (find_known _ _ _ _ Hl). by repeat split.
  - set (a := fresh (dom (headers h))).
    assert (Ha : headers h !! a = None) by apply fresh_header_unused.
    exists a, (mkHeader (string_of_rune sym) None). eexists _, _.
    split; [by apply find_unknown|]. fold a.
    split; [apply lookup_insert_eq|]. split.
    { intros k v Hk. rewrite lookup_insert_ne; [done|]. congruence. }
    split; [apply lookup_insert_eq|]. split; [done|].
    assert (Hold : ∀ k v, t !! k = Some v → v ≠ Some a).
    { intros k v Hk ->. specialize (Hent k _ Hk). unfold entry_ok, hptr in Hent.
      by rewrite Ha in Hent. }
    split.
    + apply map_Forall_insert_2.
      * unfold entry_ok. simpl. by rewrite lookup_insert_eq.
      * intros k v Hk. pose proof (Hent k v Hk) as Hv. unfold entry_ok in *. simpl.
        destruct v as [b|]; [|done].
        rewrite lookup_insert_ne; [done|]. intros <-. by apply (Hold k (Some a)).
    + intros k1 v1 H1 k2 v2 H2 Hv. subst v2.
      rewrite lookup_insert in H1, H2.
      destruct (decide (sym = k1)) as [<-|N1], (decide (sym = k2)) as [<-|N2];
        simplify_eq; [done|by destruct (Hold k2 _ H2)|by destruct (Hold k1 _ H1)|].
      by apply (Hinj k1 v1 H1 k2 v1 H2).
Qed.

(** [find] keeps the table sound: if every entry is an allocated header
    named after its key and no header is entered twice, then [find] returns
    a header that is allocated and named after the symbol asked for, and the
    table it leaves is sound again. *)
Theorem find_keeps_symtab_ok (sym : Z) (t : gmap Z (option hptr)) (h : Heap) :
  symtab_ok h t →
  ∃ a hd t' h',
    find sym (Some t) h = Done (Some a, Some t') h' ∧
    headers h' !! a = Some hd ∧ Sym hd = string_of_rune sym ∧
    symtab_ok h' t'.
Proof.
  intros Hok. destruct (find_spec sym t h Hok) as (a & hd & t' & h' & ? & ? & ? & ? & ? & ?).
  by exists a, hd, t', h'.
Qed.

Lemma find_keeps_symtab_ok_witness :
  ∃ a hd t' h',
    find 67 (Some {[ 65%Z := Some 1%positive ]}) heap5 = Done (Some a, Some t') h' ∧
    headers h' !! a = Some hd ∧ Sym hd = string_of_rune 67 ∧
    symtab_ok h' t'.
Proof.
  apply (find_keeps_symtab_ok 67 {[ 65%Z := Some 1%positive ]} heap5). by_compute.
Defined.

(** One header per symbol: on a sound table, [find] for two different
    symbols returns two different headers, and a later [find] for the first
    symbol returns the first header again. *)
Theorem find_distinct_symbols (s1 s2 : Z) (t : gmap Z (option hptr)) (h : Heap) :
  symtab_ok h t → s1 ≠ s2 →
  ∃ a1 a2 t1 h1 t2 h2,
    find s1 (Some t) h = Done (Some a1, Some t1) h1 ∧
    find s2 (Some t1) h1 = Done (Some a2, Some t2) h2 ∧
    a1 ≠ a2 ∧
    find s1 (Some t2) h2 = Done (Some a1, Some t2) h2.
Proof.
  intros Hok Hne.
  destruct (find_spec s1 t h Hok) as (a1 & hd1 & t1 & h1 & Hf1 & Hl1 & _ & _ & _ & Hok1).
  destruct (find_spec s2 t1 h1 Hok1)
    as (a2 & hd2 & t2 & h2 & Hf2 & Hl2 & Hkeep & _ & _ & Hok2).
  exists a1, a2, t1, h1, t2, h2. split; [done|]. split; [done|].
  pose proof (Hkeep _ _ Hl1) as Hl1'. split.
  - intros ->. destruct Hok2 as [_ Hinj]. by apply Hne, (Hinj s1 _ Hl1' s2 _ Hl2).
  - by apply find_known.
Qed.

Lemma find_distinct_symbols_witness :
  ∃ a1 a2 t1 h1 t2 h2,
    find 65 (Some ∅) empty_heap = Done (Some a1, Some t1) h1 ∧
    find 66 (Some t1) h1 = Done (Some a2, Some t2) h2 ∧
    a1 ≠ a2 ∧
    find 65 (Some t2) h2 = Done (Some a1, Some t2) h2.
Proof.
  apply (find_distinct_symbols 65 66 ∅ empty_heap); [by_compute|lia].
Defined.

(** * The scanner *)

Lemma string_app_assoc (s1 s2 s3 : string) : (s1 +:+ s2) +:+ s3 = s1 +:+ (s2 +:+ s3).
Proof.
  induction s1 as [|c s1 IH]; [done|].
  change (String c ((s1 +:+ s2) +:+ s3) = String c (s1 +:+ s2 +:+ s3)). by f_equal.
Qed.

Lemma string_app_nil_r (s : string) : s +:+ "" = s.
Proof.
  induction s as [|c s IH]; [done|].
  change (String c (s +:+ "") = String c s). by f_equal.
Qed.

Lemma getsyms_end n s : sym s = dollar → getsyms n s = s.
Proof.
  intros Hs. induction n as [|n IH]; [done|].
  simpl. unfold getsym. rewrite Hs. simpl. exact IH.
Qed.

Lemma getsym_nil sy out :
  sy ≠ dollar → getsym (mkScanner [] sy out) = mkScanner [] dollar out.
Proof.
  intros Hs. unfold getsym. simpl. by rewrite (proj2 (Z.eqb_neq _ _) Hs).
Qed.

Lemma getsym_cons b rest sy out :
  sy ≠ dollar →
  getsym (mkScanner (b :: rest) sy out)
  = mkScanner rest (rune_of_byte b)
      (if (rune_of_byte b =? 0)%Z || (rune_of_byte b =? dollar)%Z then out
       else out +:+ string_of_rune (rune_of_byte b)).
Proof.
  intros Hs. unfold getsym. simpl. rewrite (proj2 (Z.eqb_neq _ _) Hs).
  unfold write, read. simpl. by destruct (_ || _).
Qed.

Lemma rune_of_byte_range b : (0 ≤ rune_of_byte b < 256)%Z.
Proof. unfold rune_of_byte. pose proof (Byte.to_N_bounded b). lia. Qed.

(** Scanning a stretch of input that holds no ['$']. *)
Lemma getsyms_prefix pre : ∀ rest sy out,
  sy ≠ dollar → Forall (λ b, rune_of_byte b ≠ dollar) pre →
  ∃ c, getsyms (length pre) (mkScanner (pre ++ rest) sy out)
       = mkScanner rest c (out +:+ echo pre) ∧ c ≠ dollar.
Proof.
  induction pre as [|b pre IH]; intros rest sy out Hs Hpre.
  - exists sy. simpl. by rewrite string_app_nil_r.
  - apply Forall_cons in Hpre as [Hb Hpre]. simpl.
    rewrite getsym_cons by done. rewrite (proj2 (Z.eqb_neq _ _) Hb), orb_false_r.
    destruct (IH rest (rune_of_byte b)
                (if (rune_of_byte b =? 0)%Z then out
                 else out +:+ string_of_rune (rune_of_byte b)) Hb Hpre)
      as (c & Hrun & Hc).
    exists c. split; [|done]. rewrite Hrun. f_equal.
    destruct (rune_of_byte b =? 0)%Z; simpl; [done|]. by rewrite string_app_assoc.
Qed.

Lemma getsyms_add n m s : getsyms (n + m) s = getsyms m (getsyms n s).
Proof. revert s. induction n as [|n IH]; intros s; [done|]. simpl. apply IH. Qed.

(** However it is called, [getsym] reaches the end marker ['$'] after at
    most one call more than there are bytes of input, and from then on it
    does nothing at all. *)
Theorem getsym_reaches_end (n m : nat) (s : Scanner) :
  length (input s) < n →
  sym (getsyms n s) = dollar ∧ getsyms m (getsyms n s) = getsyms n s.
Proof.
  intros Hn.
  assert (Hend : sym (getsyms n s) = dollar).
  { revert s Hn. induction n as [|n IH]; intros s Hn; [lia|].
    destruct (decide (sym s = dollar)) as [Hs|Hs].
    { by rewrite getsyms_end. }
    destruct s as [[|b rest] sy out]; simpl in *.
    - rewrite getsym_nil by done. by rewrite getsyms_end.
    - rewrite getsym_cons by done. apply IH. simpl. lia. }
  split; [done|]. by apply getsyms_end.
Qed.

Lemma getsym_reaches_end_witness :
  sym (getsyms 22 initial_scanner) = dollar ∧
  getsyms 5 (getsyms 22 initial_scanner) = getsyms 22 initial_scanner.
Proof. apply (getsym_reaches_end 22 5 initial_scanner). vm_compute. lia. Defined.

(** Started with [sym] other than ['$'] (it is 0 when the program starts),
    more calls of [getsym] than there are bytes in an input that holds no
    ['$'] consume all of the input, leave [sym] at ['$'], and write each
    byte in order, taken as a rune and converted to a string, except the
    zero byte, which is consumed and not written. *)
Theorem getsym_echoes_input (n : nat) (s : Scanner) :
  sym s ≠ dollar → Forall (λ b, rune_of_byte b ≠ dollar) (input s) →
  length (input s) < n →
  getsyms n s = mkScanner [] dollar (stdout s +:+ echo (input s)).
Proof.
  intros Hs Hin Hn. destruct s as [inp sy out]. simpl in *.
  replace n with (length inp + (1 + (n - length inp - 1))) by lia.
  rewrite !getsyms_add.
  destruct (getsyms_prefix inp [] sy out Hs Hin) as (c & Hrun & Hc).
  rewrite app_nil_r in Hrun. rewrite Hrun. simpl.
  rewrite getsym_nil by done. by rewrite getsyms_end.
Qed.

Lemma getsym_echoes_input_witness :
  getsyms 22 initial_scanner
  = mkScanner [] dollar (stdout initial_scanner +:+ echo (input initial_scanner)).
Proof.
  apply (getsym_echoes_input 22 initial_scanner).
  - vm_compute. discriminate.
  - apply (bool_decide_unpack _). vm_compute. exact I.
  - vm_compute. lia.
Defined.

(** Started with [sym] other than ['$'], a ['$'] byte in the input ends
    the scan for good: the bytes that precede it are consumed and echoed
    (each as a rune converted to a string, zero bytes not written), the
    ['$'] is consumed and not written, and what follows it is never read,
    however often [getsym] is called. *)
Theorem getsym_stops_at_dollar (n : nat) (s : Scanner) (pre post : list byte) :
  sym s ≠ dollar → input s = pre ++ "$"%byte :: post →
  Forall (λ b, rune_of_byte b ≠ dollar) pre → length pre < n →
  getsyms n s = mkScanner post dollar (stdout s +:+ echo pre).
Proof.
  intros Hs Hin Hpre Hn. destruct s as [inp sy out]. simpl in *. subst inp.
  replace n with (length pre + (1 + (n - length pre - 1))) by lia.
  rewrite !getsyms_add.
  destruct (getsyms_prefix pre ("$"%byte :: post) sy out Hs Hpre) as (c & Hrun & Hc).
  rewrite Hrun. simpl. rewrite getsym_cons by done. simpl.
  by rewrite getsyms_end.
Qed.

Lemma getsym_stops_at_dollar_witness :
  getsyms 7 (mkScanner ["a"; "$"; "b"; "c"]%byte 0 "")
  = mkScanner ["b"; "c"]%byte dollar ("" +:+ echo ["a"%byte]).
Proof.
  apply (getsym_stops_at_dollar 7 (mkScanner ["a"; "$"; "b"; "c"]%byte 0 "")
           ["a"%byte] ["b"; "c"]%byte).
  - vm_compute. discriminate.
  - reflexivity.
  - apply (bool_decide_unpack _). vm_compute. exact I.
  - vm_compute. lia.
Defined.

Lemma string_of_rune_ascii b :
  (0 < rune_of_byte b < 128)%Z →
  string_of_rune (rune_of_byte b) = String (ascii_of_byte b) "".
Proof. intros H. destruct b; try (unfold rune_of_byte in H; simpl in H; lia); reflexivity. Qed.

Lemma string_of_rune_high b :
  (128 ≤ rune_of_byte b)%Z →
  string_of_rune (rune_of_byte b)
  = String (ascii_of_N (192 + Byte.to_N b / 64))
      (String (ascii_of_N (128 + Byte.to_N b mod 64)) "").
Proof. intros H. destruct b; try (unfold rune_of_byte in H; simpl in H; lia); reflexivity. Qed.

Lemma echo_ascii bs :
  Forall (λ b, (0 < rune_of_byte b < 128)%Z) bs → echo bs = string_of_bytes bs.
Proof.
  induction 1 as [|b bs Hb _ IH]; [done|].
  simpl. rewrite (proj2 (Z.eqb_neq _ _)) by lia.
  rewrite string_of_rune_ascii by done. rewrite IH. reflexivity.
Qed.

(** Started with [sym] other than ['$'], more calls of [getsym] than
    there are bytes in an input of ASCII bytes, none of them zero or ['$'],
    consume all of the input and write it to the output byte for byte. *)
Theorem getsym_echoes_ascii (n : nat) (s : Scanner) :
  sym s ≠ dollar →
  Forall (λ b, (0 < rune_of_byte b < 128)%Z ∧ rune_of_byte b ≠ dollar) (input s) →
  length (input s) < n →
  getsyms n s = mkScanner [] dollar (stdout s +:+ string_of_bytes (input s)).
Proof.
  intros Hs Hin Hn. destruct s as [inp sy out]. simpl in *.
  assert (Hnd : Forall (λ b, rune_of_byte b ≠ dollar) inp).
  { eapply Forall_impl; [exact Hin|]. by intros ? []. }
  assert (Hasc : Forall (λ b, (0 < rune_of_byte b < 128)%Z) inp).
  { eapply Forall_impl; [exact Hin|]. by intros ? []. }
  replace n with (length inp + (1 + (n - length inp - 1))) by lia.
  rewrite !getsyms_add.
  destruct (getsyms_prefix inp [] sy out Hs Hnd) as (c & Hrun & Hc).
  rewrite app_nil_r in Hrun. rewrite Hrun. simpl.
  rewrite getsym_nil by done. rewrite getsyms_end by done.
  by rewrite (echo_ascii inp Hasc).
Qed.

Lemma getsym_echoes_ascii_witness :
  getsyms 22 initial_scanner
  = mkScanner [] dollar
      (stdout initial_scanner +:+ string_of_bytes (input initial_scanner)).
Proof.
  apply (getsym_echoes_ascii 22 initial_scanner).
  - vm_compute. discriminate.
  - apply (bool_decide_unpack _). vm_compute. exact I.
  - vm_compute. lia.
Defined.

(** When [sym] is not ['$'] and the next input byte is 128 or more,
    [getsym] consumes the byte, sets [sym] to its value, and writes not the
    byte but the two bytes of the UTF-8 encoding of the code point of that
    number. *)
Theorem getsym_high_byte (s : Scanner) (b : byte) (rest : list byte) :
  sym s ≠ dollar → input s = b :: rest → (128 ≤ rune_of_byte b)%Z →
  getsym s
  = mkScanner rest (rune_of_byte b)
      (stdout s +:+ String (ascii_of_N (192 + Byte.to_N b / 64))
                      (String (ascii_of_N (128 + Byte.to_N b mod 64)) "")).
Proof.
  intros Hs Hin Hb. destruct s as [inp sy out]. simpl in *. subst inp.
  rewrite getsym_cons by done.
  rewrite (proj2 (Z.eqb_neq (rune_of_byte b) 0)) by lia.
  rewrite (proj2 (Z.eqb_neq (rune_of_byte b) dollar)) by (unfold dollar; lia).
  simpl. by rewrite string_of_rune_high.
Qed.

Lemma getsym_high_byte_witness :
  getsym (mkScanner ["206"; "181"]%byte 0 "")
  = mkScanner ["181"%byte] (rune_of_byte "206"%byte)
      ("" +:+ String (ascii_of_N (192 + Byte.to_N "206"%byte / 64))
                (String (ascii_of_N (128 + Byte.to_N "206"%byte mod 64)) "")).
Proof.
  apply (getsym_high_byte (mkScanner ["206"; "181"]%byte 0 "") "206"%byte ["181"%byte]).
  - vm_compute. discriminate.
  - reflexivity.
  - vm_compute. discriminate.
Defined.

(** [sym] only ever holds the value of a byte: if it does before a run of
    calls of [getsym] (it is 0 when the program starts), it does after it.
    So it is never the rune ['ε'] (949) that [term] compares it with. *)
Theorem getsym_sym_is_byte (n : nat) (s : Scanner) :
  (0 ≤ sym s < 256)%Z →
  (0 ≤ sym (getsyms n s) < 256)%Z ∧ sym (getsyms n s) ≠ 949%Z.
Proof.
  intros Hs. assert (H : (0 ≤ sym (getsyms n s) < 256)%Z); [|split; [done|lia]].
  revert s Hs. induction n as [|n IH]; intros s Hs; [done|].
  simpl. apply IH.
  destruct (decide (sym s = dollar)) as [Hd|Hd].
  { unfold getsym. by rewrite Hd. }
  destruct s as [[|b rest] sy out]; simpl in *.
  - rewrite getsym_nil by done. simpl. unfold dollar. lia.
  - rewrite getsym_cons by done. simpl. apply rune_of_byte_range.
Qed.

Lemma getsym_sym_is_byte_witness :
  (0 ≤ sym (getsyms 4 initial_scanner) < 256)%Z ∧
  sym (getsyms 4 initial_scanner) ≠ 949%Z.
Proof. apply (getsym_sym_is_byte 4 initial_scanner). simpl. lia. Defined.
